(** * PlayMusic local API (server/index.js): a shallow embedding

    The server keeps two module-level arrays, [tracks] and [videos], mirrors
    each of them to a JSON file after every mutation, and answers a handful
    of Express routes.  This file embeds the values, the file helpers, the
    route handlers and the route table of [server/index.js], and states the
    properties of the service over them. *)

From Stdlib Require Import ZArith NArith Ascii String Decimal DecimalString
  DecimalN.
From stdpp Require Import base option list strings.

#[local] Set Warnings "-register-all".

Local Open Scope Z_scope.
Local Open Scope nat_scope.

(** ** JavaScript values that travel through the API

    Request bodies, file contents and responses are JSON.  Numbers are kept
    as integers: the only thing the server ever does with a number is to test
    whether it is falsy.  A property that is absent from an object reads as
    [undefined], modelled by [None]. *)

Inductive json : Type :=
  | JNull
  | JBool (b : bool)
  | JNum (n : Z)
  | JStr (s : string)
  | JArr (xs : list json)
  | JObj (kvs : list (string * json)).

(** An object is its list of own properties, in insertion order. *)
Definition obj : Type := list (string * json).

(** [o.k] *)
Fixpoint prop (o : obj) (k : string) : option json :=
  match o with
  | [] => None
  | (k', v) :: o' => if String.eqb k' k then Some v else prop o' k
  end.

(** [o.k = v], keeping the position of a key that is already there. *)
Fixpoint obj_set (k : string) (v : json) (o : obj) : obj :=
  match o with
  | [] => [(k, v)]
  | (k', v') :: o' =>
      if String.eqb k' k then (k, v) :: o' else (k', v') :: obj_set k v o'
  end.

(** An object literal [{ k1: e1, ..., kn: en }] whose values may be
    [undefined].  A key holding [undefined] is indistinguishable from an
    absent key for everything this server does (a property read yields
    [undefined] either way, and [JSON.stringify] omits it), so such keys are
    not stored. *)
Fixpoint object (fields : list (string * option json)) : obj :=
  match fields with
  | [] => []
  | (k, Some v) :: fs => (k, v) :: object fs
  | (_, None) :: fs => object fs
  end.

(** JavaScript truthiness, as tested by [!x], [x || y] and [x && y]. *)
Definition truthy (v : option json) : bool :=
  match v with
  | None => false
  | Some JNull => false
  | Some (JBool b) => b
  | Some (JNum n) => negb (Z.eqb n 0)
  | Some (JStr s) => negb (String.eqb s "")
  | Some (JArr _) => true
  | Some (JObj _) => true
  end.

(** [v || null] *)
Definition or_null (v : option json) : json :=
  match v with
  | Some x => if truthy v then x else JNull
  | None => JNull
  end.

(** [v === s] for a string [s]: strict equality never coerces. *)
Definition strict_eq_str (v : option json) (s : string) : bool :=
  match v with
  | Some (JStr s') => String.eqb s' s
  | _ => false
  end.

(** ** Strings *)

(** [toLowerCase] on the ASCII range; other code units are left alone.
    JavaScript's [toLowerCase] also lowers letters outside ASCII, so this
    function agrees with it on ASCII text only, and what is stated below
    about which records a query matches is stated for ASCII text. *)
Definition lower_ascii (c : ascii) : ascii :=
  let n := N_of_ascii c in
  if (65 <=? n)%N && (n <=? 90)%N then ascii_of_N (n + 32) else c.

Fixpoint toLowerCase (s : string) : string :=
  match s with
  | EmptyString => EmptyString
  | String c s' => String (lower_ascii c) (toLowerCase s')
  end.

(** [s.includes(q)] *)
Fixpoint includes (s q : string) : bool :=
  String.prefix q s ||
  match s with
  | EmptyString => false
  | String _ s' => includes s' q
  end.

(** Decimal rendering of a non-negative integer inside a template literal. *)
Definition decimal (n : N) : string := NilEmpty.string_of_uint (N.to_uint n).

(** ** The outside world

    What one request reads from its environment: [Date.now()], the value of
    [Math.floor(Math.random() * 10000)] (an integer from 0 to 9999),
    [new Date().toISOString()], and whether [fs.writeFileSync] goes through
    or throws.  A write that throws is taken to throw before the file is
    touched, as when it cannot be opened; a write that fails after the file
    has been truncated is not modelled. *)
Record world : Type := World {
  clock : N;
  draw : N;
  iso : string;
  disk_ok : bool
}.

(** [generateId()] *)
Definition generateId (w : world) : string :=
  decimal (clock w) +:+ "-" +:+ decimal (draw w).

(** A file on disk: missing, present but unreadable or not JSON, or holding
    a JSON document. *)
Inductive file : Type :=
  | Absent
  | Malformed
  | Parsed (doc : json).

(** The two module-level arrays, the two data files, and what was sent to
    [console.error]. *)
Record server : Type := Server {
  tracks : list obj;
  videos : list obj;
  data_json : file;
  videos_json : file;
  console : list string
}.

Definition set_tracks (l : list obj) (st : server) : server :=
  Server l (videos st) (data_json st) (videos_json st) (console st).
Definition set_videos (l : list obj) (st : server) : server :=
  Server (tracks st) l (data_json st) (videos_json st) (console st).
Definition set_data_json (f : file) (st : server) : server :=
  Server (tracks st) (videos st) f (videos_json st) (console st).
Definition set_videos_json (f : file) (st : server) : server :=
  Server (tracks st) (videos st) (data_json st) f (console st).
Definition log_error (msg : string) (st : server) : server :=
  Server (tracks st) (videos st) (data_json st) (videos_json st)
         (console st ++ [msg]).

(** What [JSON.stringify] writes for a collection. *)
Definition collection_doc (l : list obj) : json := JArr (JObj <$> l).

(** [saveTracks()] *)
Definition saveTracks (w : world) (st : server) : server :=
  if disk_ok w then set_data_json (Parsed (collection_doc (tracks st))) st
  else log_error "Failed to save data.json" st.

(** [saveVideos(videos)] *)
Definition saveVideos (w : world) (vs : list obj) (st : server) : server :=
  if disk_ok w then set_videos_json (Parsed (collection_doc vs)) st
  else log_error "Failed to save videos.json" st.

(** ** Responses *)

(** A handler either sends a JSON response with a status code, or throws, in
    which case Express answers with its own error page. *)
Inductive response : Type :=
  | Res (status : nat) (body : json)
  | Uncaught (error : string).

Definition not_found : response :=
  Res 404 (JObj [("error", JStr "Not found")]).

(** The predicate [(x) => x.id === id] of [find] and [findIndex]. *)
Definition has_id (id : string) (x : obj) : Prop :=
  strict_eq_str (prop x "id") id = true.

Global Instance has_id_dec id x : Decision (has_id id x).
Proof. unfold has_id. apply _. Defined.

(** ** Track handlers *)

(** GET /tracks *)
Definition get_tracks (st : server) : server * response :=
  (st, Res 200 (collection_doc (tracks st))).

(** GET /tracks/:id *)
Definition get_track (id : string) (st : server) : server * response :=
  match list_find (has_id id) (tracks st) with
  | None => (st, not_found)
  | Some (_, t) => (st, Res 200 (JObj t))
  end.

(** POST /tracks *)
Definition post_track (w : world) (body : obj) (st : server)
  : server * response :=
  let url := prop body "url" in
  let title := prop body "title" in
  let artist := prop body "artist" in
  let artwork := prop body "artwork" in
  if negb (truthy url) || negb (truthy title) then
    (st, Res 400 (JObj [("error", JStr "url and title are required")]))
  else
    let t := object [("id", Some (JStr (generateId w))); ("url", url);
                     ("title", title); ("artist", artist);
                     ("artwork", artwork)] in
    let st1 := set_tracks (tracks st ++ [t]) st in
    let st2 := saveTracks w st1 in
    (st2, Res 201 (JObj t)).

(** DELETE /tracks/:id *)
Definition delete_track (w : world) (id : string) (st : server)
  : server * response :=
  match list_find (has_id id) (tracks st) with
  | None => (st, not_found)
  | Some (idx, removed) =>
      let st1 := set_tracks (delete idx (tracks st)) st in
      let st2 := saveTracks w st1 in
      (st2, Res 200 (JObj removed))
  end.

(** ** Evaluation that may throw *)

Inductive completion (A : Type) : Type :=
  | Normal (a : A)
  | Throw (error : string).
Arguments Normal {A} a.
Arguments Throw {A} error.

Global Instance completion_bind : MBind completion := λ A B k c,
  match c with
  | Normal a => k a
  | Throw e => Throw e
  end.

(** [v?.toLowerCase().includes(query)]: [undefined] when [v] is [null] or
    [undefined], a boolean when [v] is a string, and a [TypeError] for any
    other value, which has no [toLowerCase] method. *)
Definition lower_includes (v : option json) (query : string)
  : completion (option bool) :=
  match v with
  | None | Some JNull => Normal None
  | Some (JStr s) => Normal (Some (includes (toLowerCase s) query))
  | Some _ => Throw "TypeError: toLowerCase is not a function"
  end.

(** [p.toLowerCase().includes(query)] for one playlist entry. *)
Definition entry_includes (query : string) (p : json) : completion bool :=
  match p with
  | JStr s => Normal (includes (toLowerCase s) query)
  | JNull => Throw "TypeError: Cannot read properties of null"
  | _ => Throw "TypeError: p.toLowerCase is not a function"
  end.

(** [arr.some(f)]: stops at the first element on which [f] is true. *)
Fixpoint some_c {A} (f : A → completion bool) (l : list A) : completion bool :=
  match l with
  | [] => Normal false
  | x :: l' => b ← f x; if b : bool then Normal true else some_c f l'
  end.

(** [arr.filter(f)] *)
Fixpoint filter_c {A} (f : A → completion bool) (l : list A)
  : completion (list A) :=
  match l with
  | [] => Normal []
  | x :: l' =>
      b ← f x; r ← filter_c f l'; Normal (if b : bool then x :: r else r)
  end.

(** Truthiness of [(v && v.some(p => p.toLowerCase().includes(query)))]. *)
Definition playlist_some (v : option json) (query : string)
  : completion bool :=
  if truthy v then
    match v with
    | Some (JArr ps) => some_c (entry_includes query) ps
    | _ => Throw "TypeError: t.playlist.some is not a function"
    end
  else Normal false.

(** [a || b], with [b] evaluated only when [a] is falsy. *)
Definition or_else (a : completion (option bool)) (b : completion bool)
  : completion bool :=
  r ← a; match r with Some true => Normal true | _ => b end.

(** The filter predicate of GET /tracks/search. *)
Definition track_matches (query : string) (t : obj) : completion bool :=
  or_else (lower_includes (prop t "title") query)
   (or_else (lower_includes (prop t "artist") query)
     (or_else (lower_includes (prop t "url") query)
       (playlist_some (prop t "playlist") query))).

(** The filter predicate of GET /videos/search. *)
Definition video_matches (query : string) (v : obj) : completion bool :=
  or_else (lower_includes (prop v "title") query)
   (or_else (lower_includes (prop v "url") query) (Normal false)).

(** [req.query.q?.toLowerCase() || ''], for [q] absent or a string. *)
Definition query_of (q : option string) : string :=
  match q with
  | None => ""
  | Some s => toLowerCase s
  end.

(** The body shared by the two search handlers, which differ only in their
    filter predicate and in the collection they read. *)
Definition search_with (matches : string → obj → completion bool)
    (q : option string) (l : list obj) : response :=
  let query := query_of q in
  if String.eqb query "" then Res 200 (JArr [])
  else
    match filter_c (matches query) l with
    | Normal filtered => Res 200 (collection_doc filtered)
    | Throw e => Uncaught e
    end.

(** The handler registered for GET /tracks/search *)
Definition search_tracks (q : option string) (st : server)
  : server * response :=
  (st, search_with track_matches q (tracks st)).

(** ** Video handlers *)

(** GET /videos *)
Definition get_videos (st : server) : server * response :=
  (st, Res 200 (collection_doc (videos st))).

(** GET /videos/:id *)
Definition get_video (id : string) (st : server) : server * response :=
  match list_find (has_id id) (videos st) with
  | None => (st, not_found)
  | Some (_, v) => (st, Res 200 (JObj v))
  end.

(** POST /videos *)
Definition post_video (w : world) (body : obj) (st : server)
  : server * response :=
  let url := prop body "url" in
  let title := prop body "title" in
  let thumbnail := prop body "thumbnail" in
  let duration := prop body "duration" in
  let localUri := prop body "localUri" in
  if negb (truthy url) && negb (truthy localUri) then
    (st, Res 400 (JObj [("error", JStr "url or localUri is required")]))
  else if negb (truthy title) then
    (st, Res 400 (JObj [("error", JStr "title is required")]))
  else
    let v := object [("id", Some (JStr (generateId w)));
                     ("url", Some (or_null url));
                     ("localUri", Some (or_null localUri));
                     ("title", title);
                     ("thumbnail", Some (or_null thumbnail));
                     ("duration", Some (or_null duration));
                     ("createdAt", Some (JStr (iso w)))] in
    let st1 := set_videos (videos st ++ [v]) st in
    let st2 := saveVideos w (videos st1) st1 in
    (st2, Res 201 (JObj v)).

(** DELETE /videos/:id *)
Definition delete_video (w : world) (id : string) (st : server)
  : server * response :=
  match list_find (has_id id) (videos st) with
  | None => (st, not_found)
  | Some (idx, removed) =>
      let st1 := set_videos (delete idx (videos st)) st in
      let st2 := saveVideos w (videos st1) st1 in
      (st2, Res 200 (JObj removed))
  end.

(** The handler registered for GET /videos/search *)
Definition search_videos (q : option string) (st : server)
  : server * response :=
  (st, search_with video_matches q (videos st)).

(** ** Loading at start-up *)

(** The own enumerable properties that [...t] copies out of a value: the
    members of an object, the indexed elements of an array, the indexed
    characters of a string, nothing for [null], booleans and numbers.
    (JavaScript enumerates index-like keys ahead of the others; that only
    changes the order in which the keys are printed, not what any property
    reads.) *)
Definition own_props (t : json) : obj :=
  match t with
  | JObj kvs => kvs
  | JArr xs => imap (λ i x, (decimal (N.of_nat i), x)) xs
  | JStr s =>
      imap (λ i c, (decimal (N.of_nat i), JStr (String c EmptyString)))
           (list_ascii_of_string s)
  | _ => []
  end.

(** [{ id: generateId(), ...t }]: the generated id is written first, then
    every property of [t] is copied over it. *)
Definition ensure_id (w : world) (t : json) : obj :=
  fold_left (λ o kv, obj_set kv.1 kv.2 o) (own_props t)
            [("id", JStr (generateId w))].

(** [fs.existsSync(path)] *)
Definition existsSync (f : file) : bool :=
  match f with
  | Absent => false
  | _ => true
  end.

(** [JSON.parse(fs.readFileSync(path, 'utf8'))]: the document, or [None]
    when reading or parsing throws. *)
Definition read_json (f : file) : option json :=
  match f with
  | Parsed doc => Some doc
  | _ => None
  end.

(** What [loadTracks()] leaves behind: the value assigned to [tracks], the
    data file, and the lines sent to [console.error]. *)
Record loaded : Type := Loaded {
  result : json;
  data_after : file;
  errors : list string
}.

(** The seed half of [loadTracks()].  [gen i] is the world read by the
    [generateId()] call made for the [i]-th seed entry, and [write_ok] tells
    whether [fs.writeFileSync] succeeds.  Whatever throws inside the [try]
    block (the read, the parse, [arr.map] on a value that is not an array,
    the write) is caught, logged, and followed by [return []]. *)
Definition load_seed (gen : nat → world) (write_ok : bool)
    (data seed : file) (log : list string) : loaded :=
  let caught :=
    Loaded (JArr []) data (log ++ ["Failed to load seed library.json"]) in
  if existsSync seed then
    match read_json seed with
    | Some (JArr arr) =>
        let mapped := imap (λ i t, ensure_id (gen i) t) arr in
        if write_ok then
          Loaded (collection_doc mapped) (Parsed (collection_doc mapped)) log
        else caught
    | Some _ => caught
    | None => caught
    end
  else Loaded (JArr []) data log.

(** [loadTracks()] *)
Definition loadTracks (gen : nat → world) (write_ok : bool)
    (data seed : file) : loaded :=
  if existsSync data then
    match read_json data with
    | Some doc => Loaded doc data []
    | None =>
        load_seed gen write_ok data seed
                  ["Failed to read data.json, falling back to seed"]
    end
  else load_seed gen write_ok data seed [].

(** [loadVideos()]: the value assigned to [videos] and the error lines. *)
Definition loadVideos (data : file) : json * list string :=
  if existsSync data then
    match read_json data with
    | Some doc => (doc, [])
    | None => (JArr [], ["Failed to read videos.json"])
    end
  else (JArr [], []).

(** ** The route table *)

Inductive verb : Type := GET | POST | DELETE.

Definition verb_eqb (a b : verb) : bool :=
  match a, b with
  | GET, GET | POST, POST | DELETE, DELETE => true
  | _, _ => false
  end.

(** A request after [bodyParser.json()]: the method, the path split at its
    slashes, the [q] query parameter when it is given once, and the parsed
    body (an empty object when none was sent; a body that is a JSON array
    has none of the fields read below and behaves as the empty object). *)
Record request : Type := Request {
  method : verb;
  path : list string;
  query_q : option string;
  body : obj
}.

Inductive segment : Type :=
  | Lit (s : string)
  | Param.

(** Express matches a route path segment by segment: a literal segment
    matches itself (case-insensitively, the default), a [:name] segment
    matches any one non-empty segment and binds it. *)
Fixpoint match_path (pat : list segment) (p : list string)
  : option (list string) :=
  match pat, p with
  | [], [] => Some []
  | Lit s :: pat', x :: p' =>
      if String.eqb (toLowerCase s) (toLowerCase x) then match_path pat' p'
      else None
  | Param :: pat', x :: p' =>
      if String.eqb x "" then None else cons x <$> match_path pat' p'
  | _, _ => None
  end.

Definition handler : Type :=
  list string → request → world → server → server * response.

(** [req.params.id] *)
Definition params_id (ps : list string) : string := hd "" ps.

(** The [app.get], [app.post] and [app.delete] calls of the file, in the
    order in which they are made. *)
Definition routes : list (verb * list segment * handler) :=
  [ (GET, [Lit "tracks"], λ _ _ _ st, get_tracks st);
    (GET, [Lit "tracks"; Param], λ ps _ _ st, get_track (params_id ps) st);
    (POST, [Lit "tracks"], λ _ req w st, post_track w (body req) st);
    (DELETE, [Lit "tracks"; Param],
       λ ps _ w st, delete_track w (params_id ps) st);
    (GET, [Lit "tracks"; Lit "search"],
       λ _ req _ st, search_tracks (query_q req) st);
    (GET, [Lit "videos"], λ _ _ _ st, get_videos st);
    (GET, [Lit "videos"; Param], λ ps _ _ st, get_video (params_id ps) st);
    (POST, [Lit "videos"], λ _ req w st, post_video w (body req) st);
    (DELETE, [Lit "videos"; Param],
       λ ps _ w st, delete_video w (params_id ps) st);
    (GET, [Lit "videos"; Lit "search"],
       λ _ req _ st, search_videos (query_q req) st) ].

(** Express runs the first route whose method and path match; none of the
    handlers calls [next()], so later routes are never tried.  [None] means
    that no route of this file matched. *)
Fixpoint dispatch_in (rs : list (verb * list segment * handler))
    (w : world) (req : request) (st : server) : option (server * response) :=
  match rs with
  | [] => None
  | (m, pat, h) :: rs' =>
      if verb_eqb m (method req) then
        match match_path pat (path req) with
        | Some ps => Some (h ps req w st)
        | None => dispatch_in rs' w req st
        end
      else dispatch_in rs' w req st
  end.

Definition dispatch : world → request → server → option (server * response) :=
  dispatch_in routes.

(** ** Sample data *)

Definition song_a : obj :=
  [("id", JStr "1700000000000-42"); ("url", JStr "a.mp3");
   ("title", JStr "Song A")].

Definition sample_server : server :=
  Server [song_a] [] Absent Absent [].

Definition sample_world : world :=
  World 1700000000000 42 "2023-11-14T22:13:20.000Z" true.

(** ** Vocabulary of the properties *)

(** A field is missing or empty when the body does not have it, or has it as
    [null] or as the empty string. *)
Definition missing_or_empty (v : option json) : Prop :=
  v = None ∨ v = Some JNull ∨ v = Some (JStr "").

(** A field is present when it holds a non-empty string. *)
Definition present (v : option json) : Prop :=
  ∃ s, v = Some (JStr s) ∧ s ≠ "".

(** The keys of an object, in order. *)
Definition keys (o : obj) : list string := o.*1.

Definition video_keys : list string :=
  ["id"; "url"; "localUri"; "title"; "thumbnail"; "duration"; "createdAt"].

Definition optional_video_keys : list string :=
  ["url"; "localUri"; "thumbnail"; "duration"].

(** A POST /videos body with falsy optional fields and a field that the
    server does not know. *)
Definition body_clip : obj :=
  [("localUri", JStr "file:///clip.mp4"); ("title", JStr "Clip");
   ("duration", JNum 0); ("thumbnail", JStr ""); ("extra", JBool true)].

Definition bad_track_request : response :=
  Res 400 (JObj [("error", JStr "url and title are required")]).

(** What one request may do to a collection: leave it as it is, append one
    record at its end, or take one record out of its position.  In all three
    cases the records that stay keep their relative order. *)
Inductive collection_step (old : list obj) : list obj → Prop :=
  | step_same : collection_step old old
  | step_append t : collection_step old (old ++ [t])
  | step_remove i : collection_step old (delete i old).

(** The same world, with [fs.writeFileSync] succeeding or throwing. *)
Definition disk_works (w : world) : world :=
  World (clock w) (draw w) (iso w) true.
Definition disk_fails (w : world) : world :=
  World (clock w) (draw w) (iso w) false.

(** The two resources share one shape; [kind] names them. *)
Inductive kind : Type := Tracks | Videos.

Definition collection (k : kind) (st : server) : list obj :=
  match k with
  | Tracks => tracks st
  | Videos => videos st
  end.

Definition resource (k : kind) : string :=
  match k with
  | Tracks => "tracks"
  | Videos => "videos"
  end.

(** The [id] property of each record of a collection, in order. *)
Definition ids (l : list obj) : list (option json) :=
  (λ x, prop x "id") <$> l.

(** Within-collection uniqueness of [id]. *)
Definition unique_ids (l : list obj) : Prop := NoDup (ids l).

(** No record of [l] bears the id. *)
Definition fresh_id (id : string) (l : list obj) : Prop :=
  Forall (λ x, ¬ has_id id x) l.

(** Two records that bear the same id. *)
Definition twin_a : obj :=
  [("id", JStr "7-7"); ("url", JStr "a.mp3"); ("title", JStr "First")].
Definition twin_b : obj :=
  [("id", JStr "7-7"); ("url", JStr "b.mp3"); ("title", JStr "Second")].
Definition twins_server : server :=
  Server [twin_a; twin_b] [] Absent Absent [].

(** The property of DELETE on a known id, in the words of the
    specification: the answer is 200 with a record, the length goes down by
    one, the remaining records keep their order, and the id is absent from
    the LIST that follows. *)
Definition delete_known_claim (w : world) (id : string) (st : server) : Prop :=
  ¬ fresh_id id (tracks st) →
  ∃ st' t l,
    dispatch w (Request DELETE ["tracks"; id] None []) st
    = Some (st', Res 200 (JObj t)) ∧
    length (tracks st) = S (length (tracks st')) ∧
    tracks st' `sublist_of` tracks st ∧
    dispatch w (Request GET ["tracks"] None []) st'
    = Some (st', Res 200 (collection_doc l)) ∧
    fresh_id id l.

Definition empty_server : server := Server [] [] Absent Absent [].

(** The millisecond of [sample_world] with the next random draw. *)
Definition next_draw_world : world :=
  World 1700000000000 43 "2023-11-14T22:13:20.000Z" true.

Definition body_b : obj := [("url", JStr "b.mp3"); ("title", JStr "Song B")].

(** The server after one POST /tracks on the empty server. *)
Definition after_first_create : server :=
  (post_track sample_world body_b empty_server).1.

(** The property of created ids, in the words of the specification: the id
    of a created record is a non-empty string distinct from the id of every
    record already in the collection, and ids stay unique. *)
Definition created_id_claim (w : world) (body : obj) (st : server) : Prop :=
  ∀ st' t,
    post_track w body st = (st', Res 201 (JObj t)) →
    ∃ id, prop t "id" = Some (JStr id) ∧ id ≠ "" ∧
          fresh_id id (tracks st) ∧
          (unique_ids (tracks st) → unique_ids (tracks st')).

(** The body fields that POST /tracks copies into the record. *)
Definition track_fields : list string := ["url"; "title"; "artist"; "artwork"].

Definition body_rated : obj :=
  [("url", JStr "c.mp3"); ("title", JStr "Song C"); ("rating", JNum 5)].

Definition body_c : obj := [("url", JStr "c.mp3"); ("title", JStr "Song C")].

(** The property of GET after POST, in the words of the specification: the
    record read back under the returned id carries the fields submitted in
    the body, plus the generated id. *)
Definition get_after_post_claim (w : world) (body : obj) (st : server)
  : Prop :=
  ∀ st' t,
    dispatch w (Request POST ["tracks"] None body) st
    = Some (st', Res 201 (JObj t)) →
    ∃ id t',
      prop t "id" = Some (JStr id) ∧
      dispatch w (Request GET ["tracks"; id] None []) st'
      = Some (st', Res 200 (JObj t')) ∧
      prop t' "id" = Some (JStr id) ∧
      ∀ k, k ≠ "id" → prop t' k = prop body k.

(** The members of a seed entry that is an object have pairwise distinct
    keys, as they have in every value that [JSON.parse] returns. *)
Definition distinct_keys (t : json) : Prop :=
  match t with
  | JObj kvs => NoDup (keys kvs)
  | _ => True
  end.

(** A seed library whose first entry comes with an id of its own. *)
Definition seed_with_own_id : file :=
  Parsed (JArr [JObj [("id", JStr "own"); ("title", JStr "Intro")];
                JObj [("title", JStr "Outro")]]).

(** The property of seeding, in the words of the specification: with no
    usable data file, every seed entry is given a freshly generated id, and
    the resulting sequence is written back and returned. *)
Definition seed_claim (gen : nat → world) (write_ok : bool)
    (data seed : file) : Prop :=
  data = Absent ∨ data = Malformed →
  ∀ arr, seed = Parsed (JArr arr) →
    ∃ mapped,
      result (loadTracks gen write_ok data seed) = collection_doc mapped ∧
      data_after (loadTracks gen write_ok data seed)
      = Parsed (collection_doc mapped) ∧
      length mapped = length arr ∧
      ∀ i m, mapped !! i = Some m →
             prop m "id" = Some (JStr (generateId (gen i))).

(** [q] occurs in [s] when letter case is ignored. *)
Definition ci_substring (q s : string) : Prop :=
  ∃ a b, toLowerCase s = a +:+ toLowerCase q +:+ b.

(** A field holds a string in which [q] occurs, ignoring case. *)
Definition field_hit (q : string) (v : option json) : Prop :=
  ∃ s, v = Some (JStr s) ∧ ci_substring q s.

(** Some playlist entry is a string in which [q] occurs, ignoring case. *)
Definition playlist_hit (q : string) (v : option json) : Prop :=
  ∃ ps s, v = Some (JArr ps) ∧ JStr s ∈ ps ∧ ci_substring q s.

Definition track_hit (q : string) (t : obj) : Prop :=
  field_hit q (prop t "title") ∨ field_hit q (prop t "artist") ∨
  field_hit q (prop t "url") ∨ playlist_hit q (prop t "playlist").

Definition video_hit (q : string) (v : obj) : Prop :=
  field_hit q (prop v "title") ∨ field_hit q (prop v "url").

(** A searched field as the data model types it: missing, [null], or a
    string; a playlist: missing, [null], or an array of strings. *)
Definition text_field (v : option json) : Prop :=
  v = None ∨ v = Some JNull ∨ ∃ s, v = Some (JStr s).

Definition playlist_field (v : option json) : Prop :=
  v = None ∨ v = Some JNull ∨
  ∃ ps, v = Some (JArr ps) ∧ Forall (λ p, ∃ s, p = JStr s) ps.

Definition searchable_track (t : obj) : Prop :=
  text_field (prop t "title") ∧ text_field (prop t "artist") ∧
  text_field (prop t "url") ∧ playlist_field (prop t "playlist").

Definition searchable_video (v : obj) : Prop :=
  text_field (prop v "title") ∧ text_field (prop v "url").

(** [kept P l found]: [found] is [l] with exactly the records that satisfy
    [P] kept, in the order of [l]. *)
Inductive kept (P : obj → Prop) : list obj → list obj → Prop :=
  | kept_nil : kept P [] []
  | kept_hit x l found : P x → kept P l found → kept P (x :: l) (x :: found)
  | kept_miss x l found : ¬ P x → kept P l found → kept P (x :: l) found.

Definition clip : obj :=
  [("id", JStr "1700000000001-7"); ("url", JStr "https://v/clip.mp4");
   ("localUri", JNull); ("title", JStr "Holiday Clip");
   ("thumbnail", JNull); ("duration", JNull);
   ("createdAt", JStr "2023-11-14T22:13:20.001Z")].

Definition media_server : server :=
  Server [song_a] [clip] Absent Absent [].

(** A track whose title is a number; POST /tracks accepts it. *)
Definition numbered : obj :=
  [("id", JStr "1700000000002-9"); ("url", JStr "n.mp3"); ("title", JNum 5)].

(** ** Vocabulary of the further properties *)

(** Text made of ASCII characters only. *)
Definition ascii_text (s : string) : Prop :=
  forallb (λ c, (N_of_ascii c <? 128)%N) (list_ascii_of_string s) = true.

Definition ascii_field (v : option json) : Prop :=
  ∀ s, v = Some (JStr s) → ascii_text s.

Definition ascii_entries (v : option json) : Prop :=
  ∀ ps s, v = Some (JArr ps) → JStr s ∈ ps → ascii_text s.

(** The searched fields of a record hold ASCII text. *)
Definition ascii_track (t : obj) : Prop :=
  ascii_field (prop t "title") ∧ ascii_field (prop t "artist") ∧
  ascii_field (prop t "url") ∧ ascii_entries (prop t "playlist").

Definition ascii_video (v : obj) : Prop :=
  ascii_field (prop v "title") ∧ ascii_field (prop v "url").

(** A value that is neither a string nor [null]: it has no [toLowerCase]. *)
Definition not_text (x : json) : Prop :=
  match x with
  | JBool _ | JNum _ | JArr _ | JObj _ => True
  | JNull | JStr _ => False
  end.

(** The JSON values that JavaScript takes for false. *)
Definition falsy_value (x : json) : Prop :=
  x = JNull ∨ x = JBool false ∨ x = JNum 0 ∨ x = JStr "".

(** A body field that holds a value other than a falsy one. *)
Definition usable (v : option json) : Prop :=
  ∃ x, v = Some x ∧ ¬ falsy_value x.

(** Each data file holds exactly the collection that is in memory. *)
Definition mirrored (st : server) : Prop :=
  data_json st = Parsed (collection_doc (tracks st)) ∧
  videos_json st = Parsed (collection_doc (videos st)).

(** Reading a collection back out of a JSON document. *)
Definition as_record (x : json) : option obj :=
  match x with
  | JObj kvs => Some kvs
  | _ => None
  end.

Definition as_records (doc : json) : option (list obj) :=
  match doc with
  | JArr xs => mapM as_record xs
  | _ => None
  end.

(** Process start: [let tracks = loadTracks()] and then
    [let videos = loadVideos()].  The handlers are modelled on arrays of
    objects; [None] stands for a start from a data file that holds anything
    else. *)
Definition boot (gen : nat → world) (write_ok : bool)
    (data seed vdata : file) : option server :=
  let lt := loadTracks gen write_ok data seed in
  let lv := loadVideos vdata in
  ts ← as_records (result lt);
  vs ← as_records lv.1;
  Some (Server ts vs (data_after lt) vdata (errors lt ++ lv.2)).

(** The requests of one process lifetime, handled one after the other, each
    in its own world; a request that matches no route leaves the state as it
    is. *)
Fixpoint serve (reqs : list (world * request)) (st : server) : server :=
  match reqs with
  | [] => st
  | (w, req) :: rest =>
      match dispatch w req st with
      | Some (st', _) => serve rest st'
      | None => serve rest st
      end
  end.

(** A record whose id is stored as a number. *)
Definition numeric_id_server : server :=
  Server [[("id", JNum 5); ("url", JStr "n.mp3"); ("title", JStr "Five")]]
         [] Absent Absent [].

(** A server that holds a track in memory while its tracks file cannot be
    parsed. *)
Definition stale_server : server :=
  Server [song_a] [] Malformed Absent [].

(** A server whose files hold what is in memory. *)
Definition synced_server : server :=
  Server [song_a] [] (Parsed (collection_doc [song_a]))
         (Parsed (collection_doc [])) [].

(** ** The video screen of the mobile client, as a caller of the API

    The screen keeps the list it shows in the state variable
    [serverVideos].  The three functions below are modelled for one client
    talking to a reachable server, with no other request in between; what a
    network failure does is not modelled. *)

(** [await fetch(...)] followed by [await res.json()]: the parsed body
    whatever the status code, or a rejection when what comes back is not
    JSON, as with the HTML pages Express sends on its own for an unknown
    route or a handler that threw. *)
Definition fetch_json (w : world) (req : request) (st : server)
  : server * completion json :=
  match dispatch w req st with
  | Some (st', Res _ data) => (st', Normal data)
  | Some (st', Uncaught e) => (st', Throw e)
  | None => (st, Throw "SyntaxError: Unexpected token <")
  end.

(** [data || []] *)
Definition or_empty (data : json) : json :=
  if truthy (Some data) then data else JArr [].

(** [loadServerVideos()]: the server after the request and the new value
    of [serverVideos]. *)
Definition loadServerVideos (w : world) (st : server) : server * json :=
  match fetch_json w (Request GET ["videos"] None []) st with
  | (st', Normal data) => (st', or_empty data)
  | (st', Throw _) => (st', JArr [])
  end.

(** [searchServerVideos(query)], given [String.prototype.trim] and the
    current value of [serverVideos], which a failed search leaves in
    place. *)
Definition searchServerVideos (trim : string → string) (query : string)
    (w : world) (st : server) (current : json) : server * json :=
  if String.eqb (trim query) "" then loadServerVideos w st
  else
    match fetch_json w (Request GET ["videos"; "search"] (Some query) []) st
    with
    | (st', Normal data) => (st', or_empty data)
    | (st', Throw _) => (st', current)
    end.

(** [saveVideoToServer(uri, title, thumbnail)]: a POST of
    [{ localUri: uri, title, thumbnail }], whose answer is not looked at,
    then [loadServerVideos()].  [w1] and [w2] are the worlds of the two
    requests. *)
Definition saveVideoToServer (uri title : string) (thumbnail : option string)
    (w1 w2 : world) (st : server) : server * json :=
  let body := object [("localUri", Some (JStr uri));
                      ("title", Some (JStr title));
                      ("thumbnail", JStr <$> thumbnail)] in
  let st1 := (fetch_json w1 (Request POST ["videos"] None body) st).1 in
  loadServerVideos w2 st1.

(** The clock reading and the random draw of a world. *)
Definition reading (w : world) : N * N := (clock w, draw w).

(** ** Routing lemmas: which handler answers which request *)

Lemma dispatch_post_tracks w q b st :
  dispatch w (Request POST ["tracks"] q b) st = Some (post_track w b st).
Proof. reflexivity. Qed.

Lemma dispatch_post_videos w q b st :
  dispatch w (Request POST ["videos"] q b) st = Some (post_video w b st).
Proof. reflexivity. Qed.

Lemma dispatch_list_tracks w q b st :
  dispatch w (Request GET ["tracks"] q b) st = Some (get_tracks st).
Proof. reflexivity. Qed.

Lemma dispatch_list_videos w q b st :
  dispatch w (Request GET ["videos"] q b) st = Some (get_videos st).
Proof. reflexivity. Qed.

Lemma dispatch_get_track w q b id st :
  id ≠ "" →
  dispatch w (Request GET ["tracks"; id] q b) st = Some (get_track id st).
Proof.
  intros Hid. unfold dispatch, routes, dispatch_in. cbn.
  destruct (String.eqb_spec id ""); [done|reflexivity].
Qed.

Lemma dispatch_get_video w q b id st :
  id ≠ "" →
  dispatch w (Request GET ["videos"; id] q b) st = Some (get_video id st).
Proof.
  intros Hid. unfold dispatch, routes, dispatch_in. cbn.
  destruct (String.eqb_spec id ""); [done|reflexivity].
Qed.

Lemma dispatch_delete_track w q b id st :
  id ≠ "" →
  dispatch w (Request DELETE ["tracks"; id] q b) st
  = Some (delete_track w id st).
Proof.
  intros Hid. unfold dispatch, routes, dispatch_in. cbn.
  destruct (String.eqb_spec id ""); [done|reflexivity].
Qed.

Lemma dispatch_delete_video w q b id st :
  id ≠ "" →
  dispatch w (Request DELETE ["videos"; id] q b) st
  = Some (delete_video w id st).
Proof.
  intros Hid. unfold dispatch, routes, dispatch_in. cbn.
  destruct (String.eqb_spec id ""); [done|reflexivity].
Qed.

(** ** Validation of POST bodies *)

Lemma missing_or_empty_falsy v : missing_or_empty v → truthy v = false.
Proof. by intros [-> | [-> | ->]]. Qed.

Lemma present_truthy v : present v → truthy v = true.
Proof.
  intros (s & -> & Hs). simpl.
  destruct (String.eqb_spec s ""); [done|reflexivity].
Qed.

(** C3. POST /tracks with a missing or empty [url], or a missing or empty
    [title], answers 400 [{error: "url and title are required"}] and leaves
    the whole server state as it was: no record is added, no file is
    written, nothing is logged. *)
Theorem post_track_requires_url_and_title w q body st :
  missing_or_empty (prop body "url") ∨ missing_or_empty (prop body "title") →
  dispatch w (Request POST ["tracks"] q body) st = Some (st, bad_track_request).
Proof.
  intros H. rewrite dispatch_post_tracks. unfold post_track.
  destruct H as [H | H]; apply missing_or_empty_falsy in H; rewrite H.
  - reflexivity.
  - by rewrite orb_true_r.
Qed.

Lemma post_track_requires_url_and_title_witness :
  dispatch sample_world
    (Request POST ["tracks"] None [("title", JStr "Song B"); ("url", JStr "")])
    sample_server
  = Some (sample_server, bad_track_request).
Proof.
  apply post_track_requires_url_and_title. left. right. right. reflexivity.
Defined.

Lemma or_null_falsy v : truthy v = false → or_null v = JNull.
Proof. unfold or_null. destruct v as [x|]; [|done]. by intros ->. Qed.

Lemma or_null_truthy v : truthy v = true → Some (or_null v) = v.
Proof. unfold or_null. destruct v as [x|]; [|done]. by intros ->. Qed.

(** What POST /videos does with a body that passes both checks. *)
Lemma post_video_accepts w body st :
  truthy (prop body "title") = true →
  truthy (prop body "url") = true ∨ truthy (prop body "localUri") = true →
  ∃ t v,
    prop body "title" = Some t ∧
    v = [("id", JStr (generateId w));
         ("url", or_null (prop body "url"));
         ("localUri", or_null (prop body "localUri"));
         ("title", t);
         ("thumbnail", or_null (prop body "thumbnail"));
         ("duration", or_null (prop body "duration"));
         ("createdAt", JStr (iso w))] ∧
    post_video w body st
    = (saveVideos w (videos st ++ [v]) (set_videos (videos st ++ [v]) st),
       Res 201 (JObj v)).
Proof.
  intros Ht Hu. unfold post_video.
  destruct (prop body "title") as [t|] eqn:Et; [|done].
  exists t. eexists. split; [done|]. split; [reflexivity|].
  rewrite Ht. simpl.
  destruct Hu as [-> | ->]; simpl; [|rewrite andb_false_r]; reflexivity.
Qed.

(** What POST /videos does with a body that fails one of the checks. *)
Lemma post_video_rejects w body st :
  truthy (prop body "title") = false ∨
  (truthy (prop body "url") = false ∧ truthy (prop body "localUri") = false) →
  ∃ e, post_video w body st = (st, Res 400 e).
Proof.
  intros H. unfold post_video.
  destruct (negb (truthy (prop body "url")) &&
            negb (truthy (prop body "localUri"))) eqn:E; [by eexists|].
  destruct H as [-> | [Hu Hl]]; [by eexists|].
  by rewrite Hu, Hl in E.
Qed.

(** Every answer of POST /videos is one of the two above. *)
Lemma post_video_201_inv w body st st' r :
  post_video w body st = (st', Res 201 r) →
  truthy (prop body "title") = true ∧
  (truthy (prop body "url") = true ∨ truthy (prop body "localUri") = true).
Proof.
  unfold post_video.
  destruct (truthy (prop body "url")), (truthy (prop body "localUri")),
    (truthy (prop body "title")); simpl; intros H; try discriminate H; auto.
Qed.

(** C4. POST /videos answers 400 when [title] is missing or empty, answers
    400 when both [url] and [localUri] are missing or empty, and otherwise,
    with [title] and at least one of [url] and [localUri] present, answers
    201 with the created video record, which is appended to the
    collection. *)
Theorem post_video_validation w q body st :
  let out := dispatch w (Request POST ["videos"] q body) st in
  (missing_or_empty (prop body "title") → ∃ e, out = Some (st, Res 400 e)) ∧
  (missing_or_empty (prop body "url") ∧
   missing_or_empty (prop body "localUri") →
   ∃ e, out = Some (st, Res 400 e)) ∧
  (present (prop body "title") →
   present (prop body "url") ∨ present (prop body "localUri") →
   ∃ st' v, out = Some (st', Res 201 (JObj v)) ∧
            videos st' = videos st ++ [v] ∧
            prop v "title" = prop body "title").
Proof.
  cbv zeta. rewrite dispatch_post_videos. repeat split.
  - intros H%missing_or_empty_falsy.
    destruct (post_video_rejects w body st) as [e ->]; eauto.
  - intros [Hu%missing_or_empty_falsy Hl%missing_or_empty_falsy].
    destruct (post_video_rejects w body st) as [e ->]; eauto.
  - intros Ht%present_truthy Hu.
    destruct (post_video_accepts w body st) as (t & v & Et & -> & ->);
      [done| destruct Hu as [Hu%present_truthy | Hu%present_truthy]; auto |].
    do 2 eexists. split; [reflexivity|].
    split; [by destruct (disk_ok w) eqn:E; unfold saveVideos; rewrite E|].
    by rewrite Et.
Qed.

Lemma post_video_validation_witness :
  (∃ e, dispatch sample_world
          (Request POST ["videos"] None [("url", JStr "https://v/1.mp4")])
          sample_server = Some (sample_server, Res 400 e)) ∧
  (∃ e, dispatch sample_world
          (Request POST ["videos"] None [("title", JStr "Clip")])
          sample_server = Some (sample_server, Res 400 e)) ∧
  (∃ st' v, dispatch sample_world
          (Request POST ["videos"] None
                   [("localUri", JStr "file:///clip.mp4");
                    ("title", JStr "Clip")])
          sample_server = Some (st', Res 201 (JObj v)) ∧
       videos st' = videos sample_server ++ [v] ∧
       prop v "title" = Some (JStr "Clip")).
Proof.
  split; [|split].
  - apply (proj1 (post_video_validation sample_world None
                    [("url", JStr "https://v/1.mp4")] sample_server)).
    by left.
  - apply (proj1 (proj2 (post_video_validation sample_world None
                           [("title", JStr "Clip")] sample_server))).
    split; by left.
  - apply (proj2 (proj2 (post_video_validation sample_world None
             [("localUri", JStr "file:///clip.mp4"); ("title", JStr "Clip")]
             sample_server))).
    + by exists "Clip".
    + right. by exists "file:///clip.mp4".
Defined.

(** C10. The record created by POST /videos has exactly the fields [id],
    [url], [localUri], [title], [thumbnail], [duration], [createdAt], in that
    order, whatever else the body held.  Each of [url], [localUri],
    [thumbnail] and [duration] is stored as [null] when the submitted value
    is falsy (so a duration of 0 and an empty-string url, localUri or
    thumbnail become [null]) and as submitted otherwise; [createdAt] is the
    ISO string of the clock.  The record returned is the record stored. *)
Theorem created_video_fields w q body st st' r :
  dispatch w (Request POST ["videos"] q body) st = Some (st', Res 201 r) →
  ∃ v,
    r = JObj v ∧
    videos st' = videos st ++ [v] ∧
    keys v = video_keys ∧
    (∀ k, k ∈ optional_video_keys →
          truthy (prop body k) = false → prop v k = Some JNull) ∧
    (∀ k, k ∈ optional_video_keys →
          truthy (prop body k) = true → prop v k = prop body k) ∧
    (prop body "duration" = Some (JNum 0) → prop v "duration" = Some JNull) ∧
    (∀ k, k ∈ ["url"; "localUri"; "thumbnail"] →
          prop body k = Some (JStr "") → prop v k = Some JNull) ∧
    prop v "title" = prop body "title" ∧
    prop v "id" = Some (JStr (generateId w)) ∧
    prop v "createdAt" = Some (JStr (iso w)).
Proof.
  rewrite dispatch_post_videos. intros [= H].
  destruct (post_video_201_inv _ _ _ _ _ H) as [Ht Hu].
  destruct (post_video_accepts w body st Ht Hu) as (t & v & Et & Hv & Hp).
  rewrite Hp in H. injection H as <- <-.
  assert (Hfalsy : ∀ k, k ∈ optional_video_keys →
            truthy (prop body k) = false → prop v k = Some JNull).
  { intros k Hk Hf. apply or_null_falsy in Hf. subst v.
    unfold optional_video_keys in Hk.
    repeat (apply elem_of_cons in Hk as [-> | Hk]); simpl;
      try (by rewrite Hf); by apply elem_of_nil in Hk. }
  exists v. split; [done|]. split.
  { by destruct (disk_ok w) eqn:E; unfold saveVideos; rewrite E. }
  split; [by subst v|]. split; [done|]. split.
  { intros k Hk Hf. apply or_null_truthy in Hf. subst v.
    unfold optional_video_keys in Hk.
    repeat (apply elem_of_cons in Hk as [-> | Hk]); simpl;
      try done; by apply elem_of_nil in Hk. }
  split.
  { intros Hd. apply Hfalsy; [|by rewrite Hd].
    unfold optional_video_keys. repeat constructor. }
  split.
  { intros k Hk He. apply Hfalsy; [|by rewrite He].
    unfold optional_video_keys.
    repeat (apply elem_of_cons in Hk as [-> | Hk]);
      [repeat constructor .. | by apply elem_of_nil in Hk]. }
  subst v. by rewrite Et.
Qed.

Lemma created_video_fields_witness :
  ∃ v, keys v = video_keys ∧
       prop v "duration" = Some JNull ∧
       prop v "thumbnail" = Some JNull ∧
       prop v "title" = Some (JStr "Clip") ∧
       prop v "extra" = None.
Proof.
  destruct (created_video_fields sample_world None body_clip
              sample_server _ _ eq_refl)
    as (v & Hr & _ & Hk & _ & _ & Hd & He & Ht & _).
  exists v. split; [exact Hk|]. split; [by apply Hd|].
  split; [apply He; [repeat constructor | reflexivity]|].
  split; [exact Ht|]. by injection Hr as <-.
Defined.

(** ** The handler behind a request does not depend on the world *)

Lemma dispatch_cases req :
  (∀ w st, dispatch w req st = None) ∨
  (∀ w st, dispatch w req st = Some (get_tracks st)) ∨
  (∃ id, ∀ w st, dispatch w req st = Some (get_track id st)) ∨
  (method req = POST ∧
   ∀ w st, dispatch w req st = Some (post_track w (body req) st)) ∨
  (∃ id, ∀ w st, dispatch w req st = Some (delete_track w id st)) ∨
  (∀ w st, dispatch w req st = Some (get_videos st)) ∨
  (∃ id, ∀ w st, dispatch w req st = Some (get_video id st)) ∨
  (method req = POST ∧
   ∀ w st, dispatch w req st = Some (post_video w (body req) st)) ∨
  (∃ id, ∀ w st, dispatch w req st = Some (delete_video w id st)) ∨
  (∀ w st, dispatch w req st = Some (search_tracks (query_q req) st)) ∨
  (∀ w st, dispatch w req st = Some (search_videos (query_q req) st)).
Proof.
  unfold dispatch, routes, dispatch_in.
  destruct (method req); cbn [verb_eqb];
    repeat (destruct (match_path _ (path req)));
    eauto 16.
Qed.

(** Case analysis on the route that answers the request of [H], a
    hypothesis [dispatch w req st = Some out]: one goal per handler, with
    [H] turned into an equation on what that handler returns. *)
Ltac by_route req H :=
  destruct (dispatch_cases req)
    as [E|[E|[[id E]|[[Hm E]|[[id E]|[E|[[id E]|[[Hm E]|[[id E]|[E|E]]]]]]]]]];
  rewrite E in *; try discriminate H; apply (inj Some) in H.

(** ** Saving touches neither collection *)

Lemma saveTracks_tracks w st : tracks (saveTracks w st) = tracks st.
Proof. unfold saveTracks. by destruct (disk_ok w). Qed.

Lemma saveTracks_videos w st : videos (saveTracks w st) = videos st.
Proof. unfold saveTracks. by destruct (disk_ok w). Qed.

Lemma saveVideos_tracks w vs st : tracks (saveVideos w vs st) = tracks st.
Proof. unfold saveVideos. by destruct (disk_ok w). Qed.

Lemma saveVideos_videos w vs st : videos (saveVideos w vs st) = videos st.
Proof. unfold saveVideos. by destruct (disk_ok w). Qed.

(** ** Shape of the answers of the mutating handlers *)

Lemma post_track_cases w body st :
  post_track w body st = (st, bad_track_request) ∨
  ∃ t, post_track w body st
       = (saveTracks w (set_tracks (tracks st ++ [t]) st), Res 201 (JObj t)).
Proof.
  unfold post_track.
  destruct (negb (truthy (prop body "url")) ||
            negb (truthy (prop body "title"))); eauto.
Qed.

Lemma post_video_cases w body st :
  (∃ e, post_video w body st = (st, Res 400 e)) ∨
  ∃ v, post_video w body st
       = (saveVideos w (videos st ++ [v]) (set_videos (videos st ++ [v]) st),
          Res 201 (JObj v)).
Proof.
  unfold post_video.
  destruct (negb (truthy (prop body "url")) &&
            negb (truthy (prop body "localUri"))); [eauto|].
  destruct (negb (truthy (prop body "title"))); eauto.
Qed.

Lemma delete_track_cases w id st :
  (list_find (has_id id) (tracks st) = None ∧
   delete_track w id st = (st, not_found)) ∨
  ∃ i t, list_find (has_id id) (tracks st) = Some (i, t) ∧
         delete_track w id st
         = (saveTracks w (set_tracks (delete i (tracks st)) st),
            Res 200 (JObj t)).
Proof.
  unfold delete_track.
  destruct (list_find (has_id id) (tracks st)) as [[i t]|]; eauto.
Qed.

Lemma delete_video_cases w id st :
  (list_find (has_id id) (videos st) = None ∧
   delete_video w id st = (st, not_found)) ∨
  ∃ i v, list_find (has_id id) (videos st) = Some (i, v) ∧
         delete_video w id st
         = (saveVideos w (delete i (videos st))
              (set_videos (delete i (videos st)) st),
            Res 200 (JObj v)).
Proof.
  unfold delete_video.
  destruct (list_find (has_id id) (videos st)) as [[i v]|]; eauto.
Qed.

Lemma get_track_state id st : (get_track id st).1 = st.
Proof.
  unfold get_track. by destruct (list_find _ _) as [[??]|].
Qed.

Lemma get_video_state id st : (get_video id st).1 = st.
Proof.
  unfold get_video. by destruct (list_find _ _) as [[??]|].
Qed.

(** Every request moves each collection by one [collection_step]. *)
Lemma dispatch_collection_step w req st st' r :
  dispatch w req st = Some (st', r) →
  collection_step (tracks st) (tracks st') ∧
  collection_step (videos st) (videos st').
Proof.
  intros H. by_route req H.
  - unfold get_tracks, get_videos, search_tracks, search_videos in H.
    injection H as <- _. split; constructor.
  - pose proof (get_track_state id st) as Hs. rewrite H in Hs.
    simpl in Hs. subst st'. split; constructor.
  - destruct (post_track_cases w (body req) st) as [E'|[t E']];
      rewrite E' in H; injection H as <- _.
    + split; constructor.
    + rewrite saveTracks_tracks, saveTracks_videos. split; constructor.
  - destruct (delete_track_cases w id st) as [[_ E']|(i & t & _ & E')];
      rewrite E' in H; injection H as <- _.
    + split; constructor.
    + rewrite saveTracks_tracks, saveTracks_videos. split; constructor.
  - unfold get_tracks, get_videos, search_tracks, search_videos in H.
    injection H as <- _. split; constructor.
  - pose proof (get_video_state id st) as Hs. rewrite H in Hs.
    simpl in Hs. subst st'. split; constructor.
  - destruct (post_video_cases w (body req) st) as [[e E']|[v E']];
      rewrite E' in H; injection H as <- _.
    + split; constructor.
    + rewrite saveVideos_tracks, saveVideos_videos. split; constructor.
  - destruct (delete_video_cases w id st) as [[_ E']|(i & v & _ & E')];
      rewrite E' in H; injection H as <- _.
    + split; constructor.
    + rewrite saveVideos_tracks, saveVideos_videos. split; constructor.
  - unfold get_tracks, get_videos, search_tracks, search_videos in H.
    injection H as <- _. split; constructor.
  - unfold get_tracks, get_videos, search_tracks, search_videos in H.
    injection H as <- _. split; constructor.
Qed.

(** The records that survive a step keep their relative order. *)
Lemma collection_step_sublist old new :
  collection_step old new → old `sublist_of` new ∨ new `sublist_of` old.
Proof.
  intros [|t|i].
  - by left.
  - left. by apply sublist_inserts_r.
  - right. apply sublist_delete.
Qed.

(** C6. A successful create appends the new record at the end of the
    in-memory sequence and leaves the records before it, and the other
    collection, untouched; LIST answers 200 with the whole sequence in its
    stored order and changes nothing; and every request leaves each
    collection as it was, or with one record appended at its end, or with
    one record taken out of its position, so that insertion order is the
    order in which the records are read. *)
Theorem create_appends_and_list_reads_in_order :
  (∀ w q body st st' r,
     dispatch w (Request POST ["tracks"] q body) st = Some (st', Res 201 r) →
     ∃ t, r = JObj t ∧ tracks st' = tracks st ++ [t] ∧
          videos st' = videos st) ∧
  (∀ w q body st st' r,
     dispatch w (Request POST ["videos"] q body) st = Some (st', Res 201 r) →
     ∃ v, r = JObj v ∧ videos st' = videos st ++ [v] ∧
          tracks st' = tracks st) ∧
  (∀ w q b st,
     dispatch w (Request GET ["tracks"] q b) st
     = Some (st, Res 200 (JArr (JObj <$> tracks st)))) ∧
  (∀ w q b st,
     dispatch w (Request GET ["videos"] q b) st
     = Some (st, Res 200 (JArr (JObj <$> videos st)))) ∧
  (∀ w req st st' r,
     dispatch w req st = Some (st', r) →
     collection_step (tracks st) (tracks st') ∧
     collection_step (videos st) (videos st')).
Proof.
  split; [|split; [|split; [|split]]].
  - intros w q body st st' r. rewrite dispatch_post_tracks. intros [= H].
    destruct (post_track_cases w body st) as [E|[t E]];
      rewrite E in H; [discriminate H|].
    injection H as <- <-. exists t.
    by rewrite saveTracks_tracks, saveTracks_videos.
  - intros w q body st st' r. rewrite dispatch_post_videos. intros [= H].
    destruct (post_video_cases w body st) as [[e E]|[v E]];
      rewrite E in H; [discriminate H|].
    injection H as <- <-. exists v.
    by rewrite saveVideos_tracks, saveVideos_videos.
  - reflexivity.
  - reflexivity.
  - apply dispatch_collection_step.
Qed.

Lemma create_appends_and_list_reads_in_order_witness :
  ∃ st' t,
    dispatch sample_world (Request POST ["tracks"] None body_b) sample_server
    = Some (st', Res 201 (JObj t)) ∧
    tracks st' = [song_a; t] ∧
    collection_step (tracks sample_server) (tracks st').
Proof.
  destruct create_appends_and_list_reads_in_order as (Hc & _ & _ & _ & Hs).
  destruct (Hc sample_world None body_b sample_server _ _ eq_refl)
    as (t & Hr & Ht & _).
  injection Hr as <-. do 2 eexists. split; [reflexivity|]. split; [exact Ht|].
  exact (proj1 (Hs sample_world (Request POST ["tracks"] None body_b)
                   sample_server _ _ eq_refl)).
Defined.

(** ** Persistence failures *)

Lemma saveTracks_fails w st :
  saveTracks (disk_fails w) st = log_error "Failed to save data.json" st.
Proof. reflexivity. Qed.

Lemma saveVideos_fails w vs st :
  saveVideos (disk_fails w) vs st = log_error "Failed to save videos.json" st.
Proof. reflexivity. Qed.

Lemma generateId_disk_works w : generateId (disk_works w) = generateId w.
Proof. reflexivity. Qed.

Lemma generateId_disk_fails w : generateId (disk_fails w) = generateId w.
Proof. reflexivity. Qed.

(** C9. For every request, and so for every create and delete on either
    collection: if the request is run in a world where the write of the
    backing file throws instead of one where it succeeds, the response is
    the same (201 with the created record, 200 with the removed record), the
    two in-memory collections end up the same (the mutation is not rolled
    back), both files are left as they were, and, whenever the request
    changed a collection, one error line is logged. *)
Theorem write_failure_is_swallowed w req st s_ok r_ok :
  dispatch (disk_works w) req st = Some (s_ok, r_ok) →
  ∃ s_ko,
    dispatch (disk_fails w) req st = Some (s_ko, r_ok) ∧
    tracks s_ko = tracks s_ok ∧
    videos s_ko = videos s_ok ∧
    data_json s_ko = data_json st ∧
    videos_json s_ko = videos_json st ∧
    (tracks s_ok ≠ tracks st ∨ videos s_ok ≠ videos st →
     ∃ msg, console s_ko = console st ++ [msg]).
Proof.
  intros H. by_route req H.
  - unfold get_tracks in *. injection H as <- <-.
    eexists. repeat split. by intros [?|?].
  - exists st. pose proof (get_track_state id st) as Hs.
    rewrite H in Hs. simpl in Hs. subst s_ok. rewrite H.
    repeat split. by intros [?|?].
  - unfold post_track in *. rewrite !generateId_disk_works in H.
    rewrite !generateId_disk_fails.
    destruct (negb (truthy (prop (body req) "url")) ||
              negb (truthy (prop (body req) "title")));
      injection H as <- <-.
    + eexists. repeat split. by intros [?|?].
    + eexists. repeat split. intros _. by eexists.
  - unfold delete_track in *.
    destruct (list_find (has_id id) (tracks st)) as [[i t]|];
      injection H as <- <-.
    + eexists. repeat split. intros _. by eexists.
    + eexists. repeat split. by intros [?|?].
  - unfold get_videos in *. injection H as <- <-.
    eexists. repeat split. by intros [?|?].
  - exists st. pose proof (get_video_state id st) as Hs.
    rewrite H in Hs. simpl in Hs. subst s_ok. rewrite H.
    repeat split. by intros [?|?].
  - unfold post_video in *. rewrite !generateId_disk_works in H.
    rewrite !generateId_disk_fails.
    destruct (negb (truthy (prop (body req) "url")) &&
              negb (truthy (prop (body req) "localUri")));
      [injection H as <- <-; eexists; repeat split; by intros [?|?]|].
    destruct (negb (truthy (prop (body req) "title")));
      injection H as <- <-.
    + eexists. repeat split. by intros [?|?].
    + eexists. repeat split. intros _. by eexists.
  - unfold delete_video in *.
    destruct (list_find (has_id id) (videos st)) as [[i t]|];
      injection H as <- <-.
    + eexists. repeat split. intros _. by eexists.
    + eexists. repeat split. by intros [?|?].
  - unfold search_tracks in *. injection H as <- <-.
    eexists. repeat split. by intros [?|?].
  - unfold search_videos in *. injection H as <- <-.
    eexists. repeat split. by intros [?|?].
Qed.

Lemma write_failure_is_swallowed_witness :
  ∃ s_ko,
    dispatch (disk_fails sample_world)
      (Request POST ["tracks"] None
         [("url", JStr "b.mp3"); ("title", JStr "Song B")]) sample_server
    = Some (s_ko,
            Res 201 (JObj [("id", JStr "1700000000000-42");
                           ("url", JStr "b.mp3"); ("title", JStr "Song B")])) ∧
    length (tracks s_ko) = 2 ∧
    data_json s_ko = Absent.
Proof.
  destruct (write_failure_is_swallowed sample_world
              (Request POST ["tracks"] None
                 [("url", JStr "b.mp3"); ("title", JStr "Song B")])
              sample_server _ _ eq_refl)
    as (s_ko & Hd & Ht & _ & Hf & _).
  exists s_ko. split; [exact Hd|]. split; [by rewrite Ht | exact Hf].
Defined.

(** ** DELETE *)

Lemma has_id_iff id x : has_id id x ↔ prop x "id" = Some (JStr id).
Proof.
  unfold has_id, strict_eq_str.
  destruct (prop x "id") as [[| | |s| |]|]; try (split; discriminate).
  destruct (String.eqb_spec s id); split; congruence.
Qed.

Lemma dispatch_delete k w q b id st :
  id ≠ "" →
  dispatch w (Request DELETE [resource k; id] q b) st
  = Some (match k with
          | Tracks => delete_track w id st
          | Videos => delete_video w id st
          end).
Proof.
  intros Hid.
  destruct k; [by apply dispatch_delete_track | by apply dispatch_delete_video].
Qed.

Lemma dispatch_list k w q b st :
  dispatch w (Request GET [resource k] q b) st
  = Some (st, Res 200 (collection_doc (collection k st))).
Proof. by destruct k. Qed.

(** Taking the record at [i] out of [l] leaves no bearer of [id] exactly
    when no record after [i] bears it, provided none before [i] does. *)
Lemma fresh_after_delete id (l : list obj) i :
  (∀ j x, j < i → l !! j = Some x → ¬ has_id id x) →
  (∀ j x, i < j → l !! j = Some x → ¬ has_id id x) ↔
  fresh_id id (delete i l).
Proof.
  intros Hbefore. unfold fresh_id. rewrite Forall_lookup. split.
  - intros Hafter j x Hj. rewrite list_lookup_delete in Hj.
    case_decide; [by eapply Hbefore | eapply (Hafter (S j)); [lia|done]].
  - intros Hfresh j x Hij Hj. destruct j as [|j]; [lia|].
    apply (Hfresh j). rewrite list_lookup_delete_ge by lia. done.
Qed.

Lemma delete_shrinks (l : list obj) i t :
  l !! i = Some t → length l = S (length (delete i l)).
Proof.
  intros Hi. rewrite length_delete by eauto.
  apply lookup_lt_Some in Hi. lia.
Qed.

(** C2 (amended). DELETE with an id borne by some record removes the first
    record bearing that id from its position: it answers 200 with that
    record, the collection's length goes down by exactly one, the remaining
    records keep their relative order, and the LIST that follows returns the
    shortened sequence.  The deleted id is absent from that LIST exactly
    when no later record bore the same id, as is the case when ids are
    unique.  DELETE with an id that no record bears answers 404
    [{error: "Not found"}] and leaves the whole state unchanged. *)
Theorem delete_removes_first_match k w q b id st :
  id ≠ "" →
  let out := dispatch w (Request DELETE [resource k; id] q b) st in
  (∀ i t,
     collection k st !! i = Some t →
     has_id id t →
     (∀ j x, j < i → collection k st !! j = Some x → ¬ has_id id x) →
     ∃ st',
       out = Some (st', Res 200 (JObj t)) ∧
       collection k st' = delete i (collection k st) ∧
       length (collection k st) = S (length (collection k st')) ∧
       collection k st' `sublist_of` collection k st ∧
       dispatch w (Request GET [resource k] q b) st'
       = Some (st', Res 200 (collection_doc (delete i (collection k st)))) ∧
       ((∀ j x, i < j → collection k st !! j = Some x → ¬ has_id id x) ↔
        fresh_id id (collection k st'))) ∧
  (fresh_id id (collection k st) → out = Some (st, not_found)).
Proof.
  intros Hid. cbv zeta. rewrite dispatch_delete by done. split.
  - intros i t Hi Ht Hbefore.
    assert (Hfind : list_find (has_id id) (collection k st) = Some (i, t)).
    { apply list_find_Some. split; [done|]. split; [done|].
      intros j y Hj Hlt. by eapply Hbefore. }
    destruct k; simpl in *.
    + unfold delete_track. rewrite Hfind. eexists. split; [reflexivity|].
      rewrite dispatch_list_tracks. unfold get_tracks.
      rewrite saveTracks_tracks. simpl.
      split; [done|]. split; [by eapply delete_shrinks|].
      split; [apply sublist_delete|]. split; [done|].
      by apply fresh_after_delete.
    + unfold delete_video. rewrite Hfind. eexists. split; [reflexivity|].
      rewrite dispatch_list_videos. unfold get_videos.
      rewrite saveVideos_videos. simpl.
      split; [done|]. split; [by eapply delete_shrinks|].
      split; [apply sublist_delete|]. split; [done|].
      by apply fresh_after_delete.
  - intros Hfresh. unfold fresh_id in Hfresh.
    apply (list_find_None (has_id id)) in Hfresh.
    destruct k; simpl in *.
    + unfold delete_track. by rewrite Hfresh.
    + unfold delete_video. by rewrite Hfresh.
Qed.

Lemma delete_removes_first_match_witness :
  (∃ st', dispatch sample_world
            (Request DELETE ["tracks"; "7-7"] None []) twins_server
          = Some (st', Res 200 (JObj twin_a)) ∧
          tracks st' = [twin_b]) ∧
  dispatch sample_world
    (Request DELETE ["tracks"; "7-7"] None []) sample_server
  = Some (sample_server, not_found).
Proof.
  split.
  - destruct (proj1 (delete_removes_first_match Tracks sample_world None []
                       "7-7" twins_server ltac:(discriminate))
                0 twin_a eq_refl eq_refl ltac:(intros; lia))
      as (st' & Hd & Hc & _).
    exists st'. split; [exact Hd | exact Hc].
  - apply (proj2 (delete_removes_first_match Tracks sample_world None []
                    "7-7" sample_server ltac:(discriminate))).
    repeat constructor. discriminate.
Defined.

(** C2, as stated, fails on a collection in which two records bear the same
    id: after DELETE the second of them is still listed. *)
Lemma delete_leaves_later_twin :
  ¬ delete_known_claim sample_world "7-7" twins_server.
Proof.
  intros H. destruct H as (st' & t & l & Hd & _ & _ & Hl & Hfresh).
  - intros Hf. by inversion Hf.
  - injection Hd as <- _. injection Hl as Hl.
    destruct l as [|x [|y l]]; try discriminate Hl. injection Hl as <-.
    inversion Hfresh as [|x l' Hx _]. by apply Hx.
Qed.

(** ** Generated ids *)

Lemma string_of_uint_dash_inj d d' s s' :
  NilEmpty.string_of_uint d +:+ String "-" s
  = NilEmpty.string_of_uint d' +:+ String "-" s' →
  d = d' ∧ s = s'.
Proof.
  revert d'.
  induction d as [|d IH|d IH|d IH|d IH|d IH|d IH|d IH|d IH|d IH|d IH];
    intros [|d'|d'|d'|d'|d'|d'|d'|d'|d'|d']; simpl; intros H;
    try discriminate H;
    try (injection H as H; apply IH in H as [-> ->]; done).
  by injection H as ->.
Qed.

Lemma string_of_uint_inj d d' :
  NilEmpty.string_of_uint d = NilEmpty.string_of_uint d' → d = d'.
Proof.
  intros H. pose proof (NilEmpty.usu d) as Hd.
  rewrite H, NilEmpty.usu in Hd. congruence.
Qed.

Lemma decimal_inj n n' : decimal n = decimal n' → n = n'.
Proof.
  unfold decimal. intros H%string_of_uint_inj.
  rewrite <- (DecimalN.Unsigned.of_to n), <- (DecimalN.Unsigned.of_to n').
  by rewrite H.
Qed.

Lemma generateId_nonempty w : generateId w ≠ "".
Proof. unfold generateId. by destruct (decimal (clock w)). Qed.

Lemma generateId_inj w w' :
  generateId w = generateId w' ↔ clock w = clock w' ∧ draw w = draw w'.
Proof.
  unfold generateId. split.
  - unfold decimal at 1 3. intros H. simpl in H.
    apply string_of_uint_dash_inj in H as [H1 H2].
    split; [|by apply decimal_inj]. apply decimal_inj. unfold decimal.
    by rewrite H1.
  - by intros [-> ->].
Qed.

(** ** Uniqueness of ids *)

Lemma fresh_not_in_ids id l : fresh_id id l → Some (JStr id) ∉ ids l.
Proof.
  unfold fresh_id, ids. rewrite Forall_forall.
  intros Hf (x & Hx & Hin)%list_elem_of_fmap.
  apply (Hf x Hin). by apply has_id_iff.
Qed.

Lemma unique_ids_snoc id l t :
  prop t "id" = Some (JStr id) →
  fresh_id id l → unique_ids l → unique_ids (l ++ [t]).
Proof.
  intros Ht Hf Hu. unfold unique_ids, ids in *. rewrite fmap_app.
  apply NoDup_app. split; [done|]. split.
  - intros x Hx Hx'. simpl in Hx'. rewrite Ht in Hx'.
    apply list_elem_of_singleton in Hx'. subst x.
    by apply (fresh_not_in_ids id l).
  - simpl. apply NoDup_singleton.
Qed.

Lemma unique_ids_delete i l : unique_ids l → unique_ids (delete i l).
Proof.
  unfold unique_ids, ids. rewrite list_fmap_delete.
  intros H. eapply sublist_NoDup; [exact H | apply sublist_delete].
Qed.

Lemma post_track_created w body st st' r :
  post_track w body st = (st', Res 201 r) →
  ∃ t, r = JObj t ∧ tracks st' = tracks st ++ [t] ∧ videos st' = videos st ∧
       prop t "id" = Some (JStr (generateId w)).
Proof.
  unfold post_track.
  destruct (negb (truthy (prop body "url")) ||
            negb (truthy (prop body "title"))); [discriminate|].
  intros [= <- <-]. eexists. split; [reflexivity|].
  by rewrite saveTracks_tracks, saveTracks_videos.
Qed.

Lemma post_video_created w body st st' r :
  post_video w body st = (st', Res 201 r) →
  ∃ v, r = JObj v ∧ videos st' = videos st ++ [v] ∧ tracks st' = tracks st ∧
       prop v "id" = Some (JStr (generateId w)).
Proof.
  intros H. destruct (post_video_201_inv _ _ _ _ _ H) as [Ht Hu].
  destruct (post_video_accepts w body st Ht Hu) as (t & v & Et & Hv & Hp).
  rewrite Hp in H. injection H as <- <-. exists v.
  rewrite saveVideos_tracks, saveVideos_videos. by subst v.
Qed.

(** Every request keeps ids unique, provided the id generated by a POST is
    not already borne by a record. *)
Lemma dispatch_unique_ids w req st st' r :
  dispatch w req st = Some (st', r) →
  (method req = POST →
   fresh_id (generateId w) (tracks st) ∧ fresh_id (generateId w) (videos st)) →
  unique_ids (tracks st) → unique_ids (videos st) →
  unique_ids (tracks st') ∧ unique_ids (videos st').
Proof.
  intros H Hfresh Ut Uv. by_route req H.
  - unfold get_tracks in H. by injection H as <- _.
  - pose proof (get_track_state id st) as Hs. rewrite H in Hs.
    simpl in Hs. by subst st'.
  - destruct (Hfresh Hm) as [Ft _].
    destruct (post_track_cases w (body req) st) as [E'|[t E']].
    { rewrite E' in H. by injection H as <- _. }
    rewrite E' in H. injection H as <- <-.
    destruct (post_track_created _ _ _ _ _ E') as (t' & [= <-] & Et & Ev & Hid).
    rewrite Et, Ev. split; [|done]. by eapply unique_ids_snoc.
  - destruct (delete_track_cases w id st) as [[_ E']|(i & t & _ & E')];
      rewrite E' in H; injection H as <- _; [done|].
    rewrite saveTracks_tracks, saveTracks_videos. simpl.
    split; [by apply unique_ids_delete | done].
  - unfold get_videos in H. by injection H as <- _.
  - pose proof (get_video_state id st) as Hs. rewrite H in Hs.
    simpl in Hs. by subst st'.
  - destruct (Hfresh Hm) as [_ Fv].
    destruct (post_video_cases w (body req) st) as [[e E']|[v E']].
    { rewrite E' in H. by injection H as <- _. }
    rewrite E' in H. injection H as <- <-.
    destruct (post_video_created _ _ _ _ _ E') as (v' & [= <-] & Ev & Et & Hid).
    rewrite Et, Ev. split; [done|]. by eapply unique_ids_snoc.
  - destruct (delete_video_cases w id st) as [[_ E']|(i & t & _ & E')];
      rewrite E' in H; injection H as <- _; [done|].
    rewrite saveVideos_tracks, saveVideos_videos. simpl.
    split; [done | by apply unique_ids_delete].
  - unfold search_tracks in H. by injection H as <- _.
  - unfold search_videos in H. by injection H as <- _.
Qed.

(** One request keeps the ids of a collection unique, provided that, when
    the request appends a record to that collection, the generated id is
    not already borne by one of its records. *)
Lemma dispatch_unique_ids_in k w req st st' r :
  dispatch w req st = Some (st', r) →
  unique_ids (collection k st) →
  ((∃ t, collection k st' = collection k st ++ [t]) →
   fresh_id (generateId w) (collection k st)) →
  unique_ids (collection k st').
Proof.
  intros H Hu Hfresh. by_route req H.
  - unfold get_tracks in H. by injection H as <- _.
  - pose proof (get_track_state id st) as Hs. rewrite H in Hs.
    simpl in Hs. by subst st'.
  - destruct (post_track_cases w (body req) st) as [E'|[t E']].
    { rewrite E' in H. by injection H as <- _. }
    rewrite E' in H. injection H as <- <-.
    destruct (post_track_created _ _ _ _ _ E') as (t' & [= <-] & Et & Ev & Hid).
    destruct k; simpl in *; [|by rewrite Ev].
    rewrite Et in *. eapply unique_ids_snoc; [done | | done].
    apply Hfresh. by exists t.
  - destruct (delete_track_cases w id st) as [[_ E']|(i & t & _ & E')];
      rewrite E' in H; injection H as <- _; [done|].
    destruct k; simpl in *;
      rewrite ?saveTracks_tracks, ?saveTracks_videos; simpl; [|done].
    by apply unique_ids_delete.
  - unfold get_videos in H. by injection H as <- _.
  - pose proof (get_video_state id st) as Hs. rewrite H in Hs.
    simpl in Hs. by subst st'.
  - destruct (post_video_cases w (body req) st) as [[e E']|[v E']].
    { rewrite E' in H. by injection H as <- _. }
    rewrite E' in H. injection H as <- <-.
    destruct (post_video_created _ _ _ _ _ E') as (v' & [= <-] & Ev & Et & Hid).
    destruct k; simpl in *; [by rewrite Et|].
    rewrite Ev in *. eapply unique_ids_snoc; [done | | done].
    apply Hfresh. by exists v.
  - destruct (delete_video_cases w id st) as [[_ E']|(i & t & _ & E')];
      rewrite E' in H; injection H as <- _; [done|].
    destruct k; simpl in *;
      rewrite ?saveVideos_tracks, ?saveVideos_videos; simpl; [done|].
    by apply unique_ids_delete.
  - unfold search_tracks in H. by injection H as <- _.
  - unfold search_videos in H. by injection H as <- _.
Qed.

(** C5 (amended). The id of a created record is the non-empty string
    [<Date.now()>-<draw>]; two generated ids are equal exactly when both the
    clock reading and the random draw are equal; a successful create stores
    and returns its record under the generated id; and, since the server
    never compares a generated id with the ids already stored, uniqueness of
    id within a collection is preserved by every request provided that,
    when the request is a create that appends a record to that collection,
    no record of that collection already bears the generated id (a DELETE,
    a read, and a create into the other collection need no proviso). *)
Theorem created_ids_unique_when_fresh :
  (∀ w, generateId w ≠ "") ∧
  (∀ w w', generateId w = generateId w' ↔
           clock w = clock w' ∧ draw w = draw w') ∧
  (∀ k w q body st st' r,
     dispatch w (Request POST [resource k] q body) st = Some (st', Res 201 r) →
     ∃ t, r = JObj t ∧ collection k st' = collection k st ++ [t] ∧
          prop t "id" = Some (JStr (generateId w))) ∧
  (∀ k w req st st' r,
     dispatch w req st = Some (st', r) →
     unique_ids (collection k st) →
     ((∃ t, collection k st' = collection k st ++ [t]) →
      fresh_id (generateId w) (collection k st)) →
     unique_ids (collection k st')).
Proof.
  split; [apply generateId_nonempty|].
  split; [apply generateId_inj|].
  split; [|apply dispatch_unique_ids_in].
  intros [] w q body st st' r; simpl.
  - rewrite dispatch_post_tracks. intros [= H].
    destruct (post_track_created _ _ _ _ _ H) as (t & ? & ? & ? & ?). eauto.
  - rewrite dispatch_post_videos. intros [= H].
    destruct (post_video_created _ _ _ _ _ H) as (t & ? & ? & ? & ?). eauto.
Qed.

Lemma created_ids_unique_when_fresh_witness :
  ∃ st', dispatch next_draw_world (Request POST ["tracks"] None body_b)
           sample_server
         = Some (st', Res 201 (JObj (("id", JStr "1700000000000-43")
                                     :: body_b))) ∧
         ids (tracks st')
         = [Some (JStr "1700000000000-42"); Some (JStr "1700000000000-43")] ∧
         unique_ids (tracks st').
Proof.
  eexists. split; [reflexivity|]. split; [reflexivity|].
  destruct created_ids_unique_when_fresh as (_ & _ & _ & Hinv).
  apply (Hinv Tracks next_draw_world (Request POST ["tracks"] None body_b)
              sample_server _ _ eq_refl).
  - repeat constructor. by intros ?%elem_of_nil.
  - intros _. constructor; [|constructor].
    intros H. vm_compute in H. discriminate H.
Defined.

(** C5, as stated, fails for a second create that reads the same
    millisecond and the same random draw as the first: both records get the
    id [1700000000000-42]. *)
Lemma same_tick_same_draw_collide :
  ¬ created_id_claim sample_world body_b after_first_create.
Proof.
  intros H.
  destruct (H _ _ eq_refl) as (id & Hid & _ & Hfresh & _).
  injection Hid as <-.
  inversion Hfresh as [|x l Hx _]. by apply Hx.
Qed.

(** ** GET after POST *)

Lemma track_record_fields (body : obj) id k :
  k ∈ track_fields →
  prop (object [("id", Some id); ("url", prop body "url");
                ("title", prop body "title"); ("artist", prop body "artist");
                ("artwork", prop body "artwork")]) k
  = prop body k.
Proof.
  intros Hk. unfold track_fields in Hk.
  repeat (apply elem_of_cons in Hk as [-> | Hk]);
    [..| by apply elem_of_nil in Hk];
    destruct (prop body "url"), (prop body "title"),
      (prop body "artist"), (prop body "artwork"); reflexivity.
Qed.

Lemma track_record_other (body : obj) id k :
  k ∉ "id" :: track_fields →
  prop (object [("id", Some id); ("url", prop body "url");
                ("title", prop body "title"); ("artist", prop body "artist");
                ("artwork", prop body "artwork")]) k
  = None.
Proof.
  intros Hk. unfold track_fields in Hk.
  repeat (apply not_elem_of_cons in Hk as [?%not_eq_sym%String.eqb_neq Hk]).
  destruct (prop body "url"), (prop body "title"),
    (prop body "artist"), (prop body "artwork"); cbn [object prop];
    repeat match goal with H : (_ =? _)%string = false |- _ =>
             rewrite ?H; clear H end; reflexivity.
Qed.

Lemma find_appended id (l : list obj) t :
  fresh_id id l → has_id id t →
  list_find (has_id id) (l ++ [t]) = Some (length l, t).
Proof.
  intros Hf Ht. apply list_find_Some. split; [|split; [done|]].
  - by rewrite lookup_app_r, Nat.sub_diag by lia.
  - intros j y Hj Hlt. rewrite lookup_app_l in Hj by done.
    unfold fresh_id in Hf. rewrite Forall_lookup in Hf. by eapply Hf.
Qed.

(** C7 (amended). After a POST /tracks that answers 201, and provided no
    record already in the collection bears the generated id, a GET
    /tracks/:id with the returned id answers 200 with the record that the
    POST returned and leaves the state unchanged.  That record carries the
    generated id and the [url], [title], [artist] and [artwork] of the
    body, each as submitted (absent when it was not submitted), and nothing
    else: any other field of the body is dropped. *)
Theorem get_after_post_returns_track w q body st st' r :
  dispatch w (Request POST ["tracks"] q body) st = Some (st', Res 201 r) →
  fresh_id (generateId w) (tracks st) →
  ∃ t,
    r = JObj t ∧
    prop t "id" = Some (JStr (generateId w)) ∧
    (∀ w' q' b',
       dispatch w' (Request GET ["tracks"; generateId w] q' b') st'
       = Some (st', Res 200 (JObj t))) ∧
    (∀ k, k ∈ track_fields → prop t k = prop body k) ∧
    (∀ k, k ∉ "id" :: track_fields → prop t k = None).
Proof.
  rewrite dispatch_post_tracks. unfold post_track.
  destruct (negb (truthy (prop body "url")) ||
            negb (truthy (prop body "title"))); [discriminate|].
  intros [= <- <-] Hfresh. eexists. split; [reflexivity|].
  split; [reflexivity|]. split; [|split].
  - intros w' q' b'.
    rewrite dispatch_get_track by apply generateId_nonempty.
    unfold get_track. rewrite saveTracks_tracks. simpl.
    rewrite (find_appended (generateId w)); [done|done|].
    apply has_id_iff. reflexivity.
  - apply track_record_fields.
  - apply track_record_other.
Qed.

Lemma get_after_post_returns_track_witness :
  ∃ st' t,
    dispatch sample_world (Request POST ["tracks"] None body_rated)
      empty_server = Some (st', Res 201 (JObj t)) ∧
    dispatch sample_world (Request GET ["tracks"; "1700000000000-42"] None [])
      st' = Some (st', Res 200 (JObj t)) ∧
    prop t "title" = Some (JStr "Song C") ∧
    prop t "rating" = None.
Proof.
  destruct (get_after_post_returns_track sample_world None body_rated
              empty_server _ _ eq_refl ltac:(constructor))
    as (t & Hr & _ & Hget & Hf & Ho).
  do 2 eexists. split; [reflexivity|]. injection Hr as <-.
  split; [apply Hget|]. split; reflexivity.
Defined.

(** C7, as stated, fails for a body that carries a field other than [url],
    [title], [artist] and [artwork]: the [rating] submitted is not in the
    record read back. *)
Lemma get_after_post_drops_rating :
  ¬ get_after_post_claim sample_world body_rated empty_server.
Proof.
  intros H.
  destruct (H _ _ eq_refl) as (id & t' & Hid & Hget & _ & Hk).
  injection Hid as <-. injection Hget as <-.
  specialize (Hk "rating" ltac:(discriminate)). discriminate Hk.
Qed.

(** When the generated id is already borne by an older record, the GET
    finds that older record instead of the one just created. *)
Lemma get_after_post_finds_older_twin :
  ∃ st' t,
    dispatch sample_world (Request POST ["tracks"] None body_c)
      after_first_create = Some (st', Res 201 (JObj t)) ∧
    prop t "title" = Some (JStr "Song C") ∧
    ∃ t', dispatch sample_world
            (Request GET ["tracks"; "1700000000000-42"] None []) st'
          = Some (st', Res 200 (JObj t')) ∧
          prop t' "title" = Some (JStr "Song B").
Proof.
  do 2 eexists. split; [reflexivity|]. split; [reflexivity|].
  eexists. split; reflexivity.
Qed.

(** ** Loading the tracks *)

Lemma prop_obj_set k v (o : obj) k' :
  prop (obj_set k v o) k' = if String.eqb k k' then Some v else prop o k'.
Proof.
  induction o as [|[k0 v0] o IH]; cbn [obj_set prop]; [done|].
  destruct (String.eqb_spec k0 k) as [->|Hne]; cbn [prop].
  - by destruct (String.eqb k k').
  - rewrite IH. destruct (String.eqb_spec k0 k') as [->|?]; [|done].
    by rewrite (proj2 (String.eqb_neq k k')).
Qed.

Lemma prop_not_key (o : obj) k : k ∉ keys o → prop o k = None.
Proof.
  unfold keys. induction o as [|[k0 v0] o IH]; cbn [prop]; [done|].
  rewrite fmap_cons, not_elem_of_cons. intros [Hne Hk].
  rewrite (proj2 (String.eqb_neq k0 k)) by done. by apply IH.
Qed.

(** Reading a property of [{ ...o, ...kvs }]: the spread value wins. *)
Lemma prop_spread (kvs o : obj) k :
  NoDup (keys kvs) →
  prop (fold_left (λ o kv, obj_set kv.1 kv.2 o) kvs o) k
  = match prop kvs k with
    | Some v => Some v
    | None => prop o k
    end.
Proof.
  unfold keys. revert o.
  induction kvs as [|[k0 v0] kvs IH]; intros o Hnd; cbn [fold_left prop];
    [done|].
  rewrite fmap_cons in Hnd. apply NoDup_cons in Hnd as [Hk0 Hnd].
  rewrite IH by done. cbn [fst snd]. rewrite prop_obj_set.
  destruct (String.eqb_spec k0 k) as [->|Hne]; [|done].
  by rewrite prop_not_key.
Qed.

Lemma index_keys_distinct {A} (f : nat → A → json) (l : list A) :
  NoDup (keys (imap (λ i x, (decimal (N.of_nat i), f i x)) l)).
Proof.
  unfold keys. rewrite fmap_imap.
  rewrite (imap_ext _ (λ i _, decimal (N.of_nat i))) by done.
  rewrite imap_seq_0. apply NoDup_fmap_2_strong; [|apply NoDup_seq].
  intros i j _ _ H%decimal_inj. by apply Nat2N.inj.
Qed.

Lemma own_props_keys_distinct t :
  distinct_keys t → NoDup (keys (own_props t)).
Proof.
  destruct t as [| | |s|xs|kvs]; cbn [own_props distinct_keys];
    intros H; try apply NoDup_nil_2; try done.
  - apply (index_keys_distinct (λ _ c, JStr (String c EmptyString))).
  - apply (index_keys_distinct (λ _ x, x)).
Qed.

Lemma prop_ensure_id w t k :
  distinct_keys t →
  prop (ensure_id w t) k
  = match prop (own_props t) k with
    | Some v => Some v
    | None => if String.eqb "id" k then Some (JStr (generateId w)) else None
    end.
Proof.
  intros Hd%own_props_keys_distinct. unfold ensure_id. by rewrite prop_spread.
Qed.

Lemma load_seed_result_independent gen write_ok data data' seed log log' :
  result (load_seed gen write_ok data seed log)
  = result (load_seed gen write_ok data' seed log').
Proof.
  unfold load_seed.
  destruct seed as [| |[]]; try reflexivity. by destruct write_ok.
Qed.

(** C8 (amended). When the persisted tracks file is absent, or is present
    but cannot be read and parsed, [loadTracks] falls back to the seed file.
    If the seed holds an array and the write-back succeeds, the result has
    one record per seed entry, in order; a seed entry that has no [id] of
    its own gets a freshly generated one, an entry that has an [id] keeps
    it, and every other property is copied as it is; that sequence is
    written to the persisted file and returned.  If the seed file is absent
    or unparsable the result is the empty sequence and the persisted file
    is left as it was.  A malformed persisted file yields the same result
    as a missing one. *)
Theorem load_tracks_falls_back_to_seed gen write_ok data seed :
  data = Absent ∨ data = Malformed →
  (∀ arr,
     seed = Parsed (JArr arr) → write_ok = true → Forall distinct_keys arr →
     ∃ mapped,
       result (loadTracks gen write_ok data seed) = collection_doc mapped ∧
       data_after (loadTracks gen write_ok data seed)
       = Parsed (collection_doc mapped) ∧
       length mapped = length arr ∧
       ∀ i t, arr !! i = Some t →
         ∃ m, mapped !! i = Some m ∧
              prop m "id"
              = match prop (own_props t) "id" with
                | Some v => Some v
                | None => Some (JStr (generateId (gen i)))
                end ∧
              ∀ k, k ≠ "id" → prop m k = prop (own_props t) k) ∧
  (seed = Absent ∨ seed = Malformed →
   result (loadTracks gen write_ok data seed) = JArr [] ∧
   data_after (loadTracks gen write_ok data seed) = data) ∧
  result (loadTracks gen write_ok data seed)
  = result (loadTracks gen write_ok Absent seed).
Proof.
  intros Hdata. split; [|split].
  - intros arr -> -> Hkeys.
    exists (imap (λ i t, ensure_id (gen i) t) arr).
    split; [by destruct Hdata as [-> | ->]|].
    split; [by destruct Hdata as [-> | ->]|].
    split; [apply length_imap|].
    intros i t Hi. exists (ensure_id (gen i) t).
    split; [by rewrite list_lookup_imap, Hi|].
    assert (Hd : distinct_keys t).
    { rewrite Forall_lookup in Hkeys. by eapply Hkeys. }
    split.
    + rewrite prop_ensure_id by done. by destruct (prop (own_props t) "id").
    + intros k Hk. rewrite prop_ensure_id by done.
      rewrite (proj2 (String.eqb_neq "id" k)) by done.
      by destruct (prop (own_props t) k).
  - by intros [-> | ->]; destruct Hdata as [-> | ->].
  - destruct Hdata as [-> | ->]; [done|]. apply load_seed_result_independent.
Qed.

Lemma load_tracks_falls_back_to_seed_witness :
  ∃ mapped,
    result (loadTracks (λ _, sample_world) true Malformed seed_with_own_id)
    = collection_doc mapped ∧
    ids mapped = [Some (JStr "own"); Some (JStr "1700000000000-42")].
Proof.
  destruct (proj1 (load_tracks_falls_back_to_seed (λ _, sample_world) true
                     Malformed seed_with_own_id (or_intror eq_refl))
              _ eq_refl eq_refl)
    as (mapped & Hr & _).
  - repeat constructor; simpl; intros H;
      repeat (apply elem_of_cons in H as [H|H]; [discriminate H|]);
      by apply elem_of_nil in H.
  - exists mapped. split; [exact Hr|].
    injection Hr as Hr. revert Hr.
    destruct mapped as [|m1 [|m2 [|m3 mapped]]]; try discriminate.
    by intros [= <- <-].
Defined.

(** C8, as stated, fails for a seed entry that comes with an [id]: the
    spread copies the entry's own id over the generated one. *)
Lemma seed_entry_keeps_own_id :
  ¬ seed_claim (λ _, sample_world) true Absent seed_with_own_id.
Proof.
  intros H.
  destruct (H (or_introl eq_refl) _ eq_refl) as (mapped & Hr & _ & _ & Hid).
  injection Hr as Hr.
  destruct mapped as [|m1 mapped]; [discriminate Hr|].
  injection Hr as <- _. specialize (Hid 0 _ eq_refl). discriminate Hid.
Qed.

(** When the write-back throws, the catch around the whole seed block makes
    [loadTracks] return the empty sequence although the seed was read. *)
Lemma seed_write_failure_returns_empty :
  result (loadTracks (λ _, sample_world) false Absent seed_with_own_id)
  = JArr [] ∧
  errors (loadTracks (λ _, sample_world) false Absent seed_with_own_id)
  = ["Failed to load seed library.json"].
Proof. split; reflexivity. Qed.

(** ** Search: the handlers *)

Lemma append_String c a b : String c a +:+ b = String c (a +:+ b).
Proof. reflexivity. Qed.

Lemma append_empty b : "" +:+ b = b.
Proof. reflexivity. Qed.

Lemma prefix_spec q s : String.prefix q s = true ↔ ∃ b, s = q +:+ b.
Proof.
  revert s. induction q as [|c q IH]; intros [|c' s]; simpl.
  - split; [by exists "" | done].
  - split; [by exists (String c' s) | done].
  - split; [done | by intros [b ?]].
  - destruct (Ascii.ascii_dec c c') as [->|Hne].
    + rewrite IH. split; intros [b Hb]; exists b;
        rewrite append_String in *; congruence.
    + split; [done|]. intros [b Hb]. rewrite append_String in Hb. congruence.
Qed.

Lemma includes_spec s q : includes s q = true ↔ ∃ a b, s = a +:+ q +:+ b.
Proof.
  induction s as [|c s IH]; cbn [includes]; rewrite orb_true_iff, prefix_spec.
  - split.
    + intros [[b Hb]|?]; [|done]. by exists "", b.
    + intros (a & b & H). left. exists b.
      destruct a; [done | discriminate H].
  - rewrite IH. split.
    + intros [[b Hb]|(a & b & Hab)]; [by exists "", b|].
      exists (String c a), b. rewrite append_String. by rewrite Hab.
    + intros ([|c' a] & b & H); [left; by exists b|].
      right. exists a, b. rewrite append_String in H. congruence.
Qed.

Lemma toLowerCase_empty q : toLowerCase q = "" ↔ q = "".
Proof. by destruct q. Qed.

Lemma lower_includes_text q v :
  text_field v →
  ∃ r, lower_includes v (toLowerCase q) = Normal r ∧
       (r = Some true ↔ field_hit q v).
Proof.
  intros [-> | [-> | [s ->]]]; simpl.
  - exists None. split; [done|]. split; [done | by intros (s & ? & _)].
  - exists None. split; [done|]. split; [done | by intros (s & ? & _)].
  - eexists. split; [reflexivity|]. unfold field_hit, ci_substring. split.
    + intros [= H%includes_spec]. eauto.
    + intros (s' & [= <-] & H%includes_spec). by rewrite H.
Qed.

Lemma some_entries q ps :
  Forall (λ p, ∃ s, p = JStr s) ps →
  ∃ c, some_c (entry_includes (toLowerCase q)) ps = Normal c ∧
       (c = true ↔ ∃ s, JStr s ∈ ps ∧ ci_substring q s).
Proof.
  induction 1 as [|p ps [s ->] _ (c & Hc & IH)]; cbn [some_c].
  - exists false. split; [done|]. split; [done|].
    intros (s & Hs & _). by apply elem_of_nil in Hs.
  - cbn. destruct (includes (toLowerCase s) (toLowerCase q)) eqn:E.
    + exists true. split; [done|]. split; [|done]. intros _.
      exists s. split; [by left|]. by apply includes_spec.
    + exists c. split; [done|]. rewrite IH. split.
      * intros (s' & Hs' & H). exists s'. split; [by right | done].
      * intros (s' & Hs' & H). apply elem_of_cons in Hs' as [[= ->]|Hs'].
        -- apply includes_spec in H. congruence.
        -- eauto.
Qed.

Lemma playlist_some_typed q v :
  playlist_field v →
  ∃ c, playlist_some v (toLowerCase q) = Normal c ∧
       (c = true ↔ playlist_hit q v).
Proof.
  intros [-> | [-> | (ps & -> & Hps)]]; unfold playlist_some; simpl.
  - exists false. split; [done|]. split; [done | by intros (? & ? & ? & _)].
  - exists false. split; [done|]. split; [done | by intros (? & ? & ? & _)].
  - destruct (some_entries q ps Hps) as (c & Hc & Hiff).
    exists c. split; [done|]. rewrite Hiff. unfold playlist_hit. split.
    + intros (s & ? & ?). eauto.
    + intros (ps' & s & [= <-] & ? & ?). eauto.
Qed.

Lemma or_else_normal a b r (b0 : bool) (P Q : Prop) :
  a = Normal r → (r = Some true ↔ P) →
  b = Normal b0 → (b0 = true ↔ Q) →
  ∃ c, or_else a b = Normal c ∧ (c = true ↔ P ∨ Q).
Proof.
  intros -> HP -> HQ. unfold or_else. cbn.
  destruct r as [[]|].
  - exists true. split; [done|]. split; [|done]. intros _. left. by apply HP.
  - exists b0. split; [done|]. rewrite HQ. split; [by right|].
    intros [H%HP|H]; [discriminate H | done].
  - exists b0. split; [done|]. rewrite HQ. split; [by right|].
    intros [H%HP|H]; [discriminate H | done].
Qed.

Lemma track_matches_typed q t :
  searchable_track t →
  ∃ c, track_matches (toLowerCase q) t = Normal c ∧
       (c = true ↔ track_hit q t).
Proof.
  intros (Ht & Ha & Hu & Hp). unfold track_matches, track_hit.
  destruct (lower_includes_text q _ Ht) as (r1 & E1 & H1).
  destruct (lower_includes_text q _ Ha) as (r2 & E2 & H2).
  destruct (lower_includes_text q _ Hu) as (r3 & E3 & H3).
  destruct (playlist_some_typed q _ Hp) as (c4 & E4 & H4).
  destruct (or_else_normal _ _ _ _ _ _ E3 H3 E4 H4) as (c3 & E3' & H3').
  destruct (or_else_normal _ _ _ _ _ _ E2 H2 E3' H3') as (c2 & E2' & H2').
  exact (or_else_normal _ _ _ _ _ _ E1 H1 E2' H2').
Qed.

Lemma video_matches_typed q v :
  searchable_video v →
  ∃ c, video_matches (toLowerCase q) v = Normal c ∧
       (c = true ↔ video_hit q v).
Proof.
  intros (Ht & Hu). unfold video_matches, video_hit.
  destruct (lower_includes_text q _ Ht) as (r1 & E1 & H1).
  destruct (lower_includes_text q _ Hu) as (r2 & E2 & H2).
  assert (H0 : false = true ↔ False) by done.
  destruct (or_else_normal _ _ _ _ _ _ E2 H2 eq_refl H0) as (c2 & E2' & H2').
  destruct (or_else_normal _ _ _ _ _ _ E1 H1 E2' H2') as (c1 & E1' & H1').
  exists c1. split; [done|]. rewrite H1'. tauto.
Qed.

Lemma filter_c_kept (f : obj → completion bool) (P : obj → Prop) l :
  Forall (λ x, ∃ c, f x = Normal c ∧ (c = true ↔ P x)) l →
  ∃ found, filter_c f l = Normal found ∧ kept P l found.
Proof.
  induction 1 as [|x l (c & Hc & HP) _ (found & Hf & IH)]; cbn [filter_c].
  - exists []. split; [done | constructor].
  - rewrite Hc, Hf. cbn. destruct c.
    + exists (x :: found). split; [done|]. constructor; [by apply HP | done].
    + exists found. split; [done|]. constructor; [|done].
      intros H%HP. discriminate H.
Qed.

Lemma kept_sublist P l found : kept P l found → found `sublist_of` l.
Proof. induction 1; by constructor. Qed.

Lemma kept_elem_of P l found x :
  kept P l found → x ∈ found ↔ x ∈ l ∧ P x.
Proof.
  induction 1 as [|y l found Hy _ IH|y l found Hy _ IH].
  - split; [intros H | intros [H _]]; by apply elem_of_nil in H.
  - rewrite !elem_of_cons, IH. split.
    + intros [-> | [? ?]]; auto.
    + intros [[-> | ?] ?]; auto.
  - rewrite elem_of_cons, IH. split.
    + intros [? ?]; auto.
    + intros [[-> | ?] ?]; [done | auto].
Qed.

(** X2. What the body of the two search handlers computes, for a query and
    on collections whose searched fields are typed as in the data model and
    hold ASCII text: nothing for an empty or absent query, and otherwise the
    records in which the query occurs, ignoring case, in one of the searched
    fields, in collection order. *)
Lemma search_handlers_filter k q st :
  ascii_text q →
  Forall (match k with
          | Tracks => searchable_track
          | Videos => searchable_video
          end) (collection k st) →
  Forall (match k with
          | Tracks => ascii_track
          | Videos => ascii_video
          end) (collection k st) →
  let hit := match k with Tracks => track_hit | Videos => video_hit end in
  let run := match k with Tracks => search_tracks | Videos => search_videos end in
  run None st = (st, Res 200 (JArr [])) ∧
  run (Some "") st = (st, Res 200 (JArr [])) ∧
  (q ≠ "" →
   ∃ found, run (Some q) st = (st, Res 200 (collection_doc found)) ∧
            kept (hit q) (collection k st) found).
Proof.
  intros _ Htyped _. cbv zeta.
  split; [by destruct k|]. split; [by destruct k|].
  intros Hq.
  assert (Hne : String.eqb (toLowerCase q) "" = false).
  { apply String.eqb_neq. by rewrite toLowerCase_empty. }
  destruct k; simpl in *.
  - destruct (filter_c_kept (track_matches (toLowerCase q)) (track_hit q)
                (tracks st)) as (found & Hf & Hk).
    { eapply Forall_impl; [exact Htyped|]. apply track_matches_typed. }
    exists found. split; [|done].
    unfold search_tracks, search_with, query_of. by rewrite Hne, Hf.
  - destruct (filter_c_kept (video_matches (toLowerCase q)) (video_hit q)
                (videos st)) as (found & Hf & Hk).
    { eapply Forall_impl; [exact Htyped|]. apply video_matches_typed. }
    exists found. split; [|done].
    unfold search_videos, search_with, query_of. by rewrite Hne, Hf.
Qed.

(** A stored field that is neither a string nor [null] makes the handler
    throw: a track with a numeric title passes the checks of POST /tracks
    and then breaks the filter. *)
Lemma search_throws_on_numeric_title :
  (∃ st', post_track sample_world [("url", JStr "n.mp3"); ("title", JNum 5)]
            empty_server
          = (st', Res 201 (JObj [("id", JStr "1700000000000-42");
                                 ("url", JStr "n.mp3"); ("title", JNum 5)]))) ∧
  search_tracks (Some "n") (Server [numbered] [] Absent Absent [])
  = (Server [numbered] [] Absent Absent [],
     Uncaught "TypeError: toLowerCase is not a function").
Proof. split; [by eexists | reflexivity]. Qed.

(** ** Search: the routes *)

(** A GET on [/tracks/search] or [/videos/search] is answered by the
    [/:id] route registered before the search route, with [id = "search"]. *)
Lemma search_route_is_shadowed k w q b st :
  dispatch w (Request GET [resource k; "search"] q b) st
  = Some (match k with
          | Tracks => get_track "search" st
          | Videos => get_video "search" st
          end).
Proof. by destruct k. Qed.

(** X4. Whatever the query, a GET on [/tracks/search] or [/videos/search]
    is answered 404 [{error: "Not found"}] and changes nothing, unless some
    record has the string "search" for id: the request never reaches the
    search handler. *)
Lemma search_request_not_found k w q b st :
  fresh_id "search" (collection k st) →
  dispatch w (Request GET [resource k; "search"] q b) st
  = Some (st, not_found).
Proof.
  intros Hf. rewrite search_route_is_shadowed. unfold fresh_id in Hf.
  apply (list_find_None (has_id "search")) in Hf.
  destruct k; simpl in Hf; unfold get_track, get_video; by rewrite Hf.
Qed.

(** C1 (the code departs from it). On a server that stores the track
    "Song A" and the video "Holiday Clip", the search handlers, run on their
    own, return these records for the queries "song" and "CLIP" and the
    empty sequence for the empty query; but the requests
    GET /tracks/search?q=song, GET /videos/search?q=CLIP and
    GET /tracks/search?q= are all answered 404 [{error: "Not found"}],
    because the route [/tracks/:id] (resp. [/videos/:id]) is registered
    first and takes "search" for an id. *)
Theorem search_requests_answer_not_found :
  search_tracks (Some "song") media_server
  = (media_server, Res 200 (collection_doc [song_a])) ∧
  search_videos (Some "CLIP") media_server
  = (media_server, Res 200 (collection_doc [clip])) ∧
  search_tracks (Some "") media_server = (media_server, Res 200 (JArr [])) ∧
  dispatch sample_world (Request GET ["tracks"; "search"] (Some "song") [])
    media_server = Some (media_server, not_found) ∧
  dispatch sample_world (Request GET ["videos"; "search"] (Some "CLIP") [])
    media_server = Some (media_server, not_found) ∧
  dispatch sample_world (Request GET ["tracks"; "search"] (Some "") [])
    media_server = Some (media_server, not_found).
Proof. repeat split; reflexivity. Qed.

(** * Further properties of the handlers *)

(** ** Reading one record *)

(** X1. GET /tracks/:id and GET /videos/:id answer 200 with the first
    record whose [id] is the string given in the path, and 404
    [{error: "Not found"}] when no record has that string for [id] (a
    record whose id is stored as a number is never found, since [===] does
    not coerce); either way the state is left as it is. *)
Theorem get_reads_first_match k w q b id st :
  id ≠ "" →
  let out := dispatch w (Request GET [resource k; id] q b) st in
  (∀ i t,
     collection k st !! i = Some t →
     prop t "id" = Some (JStr id) →
     (∀ j x, j < i → collection k st !! j = Some x →
             prop x "id" ≠ Some (JStr id)) →
     out = Some (st, Res 200 (JObj t))) ∧
  ((∀ x, x ∈ collection k st → prop x "id" ≠ Some (JStr id)) →
   out = Some (st, not_found)).
Proof.
  intros Hid. cbv zeta.
  assert (Hd : dispatch w (Request GET [resource k; id] q b) st
               = Some (match list_find (has_id id) (collection k st) with
                       | None => (st, not_found)
                       | Some (_, t) => (st, Res 200 (JObj t))
                       end)).
  { destruct k; [by apply dispatch_get_track | by apply dispatch_get_video]. }
  rewrite Hd. split.
  - intros i t Hi Ht Hbefore.
    assert (Hf : list_find (has_id id) (collection k st) = Some (i, t)).
    { apply list_find_Some. split; [done|]. split; [by apply has_id_iff|].
      intros j y Hj Hlt Hy%has_id_iff. by eapply Hbefore. }
    by rewrite Hf.
  - intros Hnone.
    assert (Hf : list_find (has_id id) (collection k st) = None).
    { apply list_find_None, Forall_forall.
      intros x Hx Hy%has_id_iff. by eapply Hnone. }
    by rewrite Hf.
Qed.

Lemma get_reads_first_match_witness :
  dispatch sample_world (Request GET ["tracks"; "7-7"] None []) twins_server
  = Some (twins_server, Res 200 (JObj twin_a)) ∧
  dispatch sample_world (Request GET ["tracks"; "5"] None [])
    numeric_id_server
  = Some (numeric_id_server, not_found).
Proof.
  split.
  - apply (proj1 (get_reads_first_match Tracks sample_world None [] "7-7"
                    twins_server ltac:(discriminate)) 0 twin_a);
      [reflexivity | reflexivity | intros; lia].
  - apply (proj2 (get_reads_first_match Tracks sample_world None [] "5"
                    numeric_id_server ltac:(discriminate))).
    intros x [->|Hx%elem_of_nil]%elem_of_cons; [discriminate | done].
Defined.

(** ** What a request cannot do *)

Lemma dispatch_get_cases req :
  method req = GET →
  (∀ w st, dispatch w req st = None) ∨
  (∀ w st, dispatch w req st = Some (get_tracks st)) ∨
  (∃ id, ∀ w st, dispatch w req st = Some (get_track id st)) ∨
  (∀ w st, dispatch w req st = Some (search_tracks (query_q req) st)) ∨
  (∀ w st, dispatch w req st = Some (get_videos st)) ∨
  (∃ id, ∀ w st, dispatch w req st = Some (get_video id st)) ∨
  (∀ w st, dispatch w req st = Some (search_videos (query_q req) st)).
Proof.
  intros Hm. unfold dispatch, routes, dispatch_in. rewrite Hm.
  cbn [verb_eqb]. repeat (destruct (match_path _ (path req))); eauto 12.
Qed.

(** X5. A GET request never changes the server: the collections, both
    data files and the error log are left as they are, and the answer is the
    same in every world (it reads neither the clock nor the disk). *)
Theorem get_requests_change_nothing w req st st' r :
  method req = GET →
  dispatch w req st = Some (st', r) →
  st' = st ∧ ∀ w', dispatch w' req st = Some (st, r).
Proof.
  intros Hm H.
  assert (Hst : ∀ out : server * response,
            dispatch w req st = Some out → out.1 = st ∧
            ∀ w', dispatch w' req st = Some out).
  { intros out Hout.
    destruct (dispatch_get_cases req Hm)
      as [E|[E|[[id E]|[E|[E|[[id E]|E]]]]]];
      rewrite E in Hout; try discriminate Hout; injection Hout as <-;
      (split; [|intros w'; by rewrite E]).
    - done.
    - apply get_track_state.
    - done.
    - done.
    - apply get_video_state.
    - done. }
  destruct (Hst _ H) as [Hs Hw]. simpl in Hs. subst st'. done.
Qed.

Lemma get_requests_change_nothing_witness :
  dispatch (disk_fails sample_world)
    (Request GET ["tracks"; "7-7"] None []) twins_server
  = Some (twins_server, Res 200 (JObj twin_a)).
Proof.
  exact (proj2 (get_requests_change_nothing sample_world
                  (Request GET ["tracks"; "7-7"] None []) twins_server
                  _ _ eq_refl eq_refl) (disk_fails sample_world)).
Defined.

(** X6. A request that is answered 400 or 404 leaves the whole server
    state as it was: nothing is stored, nothing is written, nothing is
    logged. *)
Theorem failed_requests_change_nothing w req st st' c b :
  dispatch w req st = Some (st', Res c b) →
  c = 400 ∨ c = 404 →
  st' = st.
Proof.
  intros H Hc. by_route req H.
  - unfold get_tracks in H. by injection H as <- _.
  - pose proof (get_track_state id st) as Hs. by rewrite H in Hs.
  - destruct (post_track_cases w (body req) st) as [E'|[t E']];
      rewrite E' in H; [by injection H as <- _|].
    injection H as _ <- _. by destruct Hc.
  - destruct (delete_track_cases w id st) as [[_ E']|(i & t & _ & E')];
      rewrite E' in H; [by injection H as <- _|].
    injection H as _ <- _. by destruct Hc.
  - unfold get_videos in H. by injection H as <- _.
  - pose proof (get_video_state id st) as Hs. by rewrite H in Hs.
  - destruct (post_video_cases w (body req) st) as [[e E']|[v E']];
      rewrite E' in H; [by injection H as <- _|].
    injection H as _ <- _. by destruct Hc.
  - destruct (delete_video_cases w id st) as [[_ E']|(i & t & _ & E')];
      rewrite E' in H; [by injection H as <- _|].
    injection H as _ <- _. by destruct Hc.
  - unfold search_tracks in H. by injection H as <- _.
  - unfold search_videos in H. by injection H as <- _.
Qed.

Lemma failed_requests_change_nothing_witness :
  ∃ st', dispatch (disk_fails sample_world)
           (Request DELETE ["videos"; "nobody"] None []) twins_server
         = Some (st', not_found) ∧ st' = twins_server.
Proof.
  eexists. split; [reflexivity|].
  apply (failed_requests_change_nothing (disk_fails sample_world)
           (Request DELETE ["videos"; "nobody"] None []) twins_server
           _ 404 _ eq_refl).
  by right.
Defined.

(** ** The search handlers on their own *)

Lemma search_handlers_filter_witness :
  ∃ found,
    search_tracks (Some "SONG") media_server
    = (media_server, Res 200 (collection_doc found)) ∧
    kept (track_hit "SONG") [song_a] found.
Proof.
  assert (Htyped : Forall searchable_track (collection Tracks media_server)).
  { constructor; [|constructor].
    repeat split; first [by left | right; right; by eexists]. }
  assert (Hascii : Forall ascii_track (collection Tracks media_server)).
  { constructor; [|constructor].
    repeat split; first [ by intros s [= <-] | by intros ps s [=] ]. }
  apply (proj2 (proj2 (search_handlers_filter Tracks "SONG" media_server
                         eq_refl Htyped Hascii))).
  discriminate.
Defined.

Lemma search_request_not_found_witness :
  dispatch sample_world (Request GET ["videos"; "search"] (Some "clip") [])
    media_server
  = Some (media_server, not_found).
Proof.
  apply (search_request_not_found Videos sample_world (Some "clip") []
           media_server).
  repeat constructor. discriminate.
Defined.

Lemma filter_c_throws {A} (f : A → completion bool) l x e :
  x ∈ l → f x = Throw e → ∃ e', filter_c f l = Throw e'.
Proof.
  intros Hx Hf. induction l as [|y l IH]; [by apply elem_of_nil in Hx|].
  cbn [filter_c]. destruct (f y) as [c|e0] eqn:Ey; [|by exists e0].
  apply elem_of_cons in Hx as [->|Hx]; [congruence|].
  destruct (IH Hx) as [e' ->]. by exists e'.
Qed.

Lemma lower_includes_throws x query :
  not_text x → ∃ e, lower_includes (Some x) query = Throw e.
Proof. destruct x; simpl; intros H; try done; by eexists. Qed.

(** X3. The search handlers do not guard against a title that is neither a
    string nor [null]: if some stored record has a number, a boolean, an
    array or an object for [title], the handler throws on every non-empty
    query, whatever the other records hold, and the state is left as it is.
    (POST /tracks stores any truthy [title] as it is, so such a record can
    be created through the API.) *)
Theorem search_throws_on_untyped_title k q st t x :
  q ≠ "" →
  t ∈ collection k st →
  prop t "title" = Some x →
  not_text x →
  ∃ e, match k with
       | Tracks => search_tracks (Some q) st
       | Videos => search_videos (Some q) st
       end = (st, Uncaught e).
Proof.
  intros Hq Ht Hx Hn.
  assert (Hne : String.eqb (toLowerCase q) "" = false).
  { apply String.eqb_neq. by rewrite toLowerCase_empty. }
  destruct (lower_includes_throws x (toLowerCase q) Hn) as [e He].
  destruct k; simpl in Ht.
  - destruct (filter_c_throws (track_matches (toLowerCase q)) (tracks st) t e Ht)
      as [e' He'].
    { unfold track_matches, or_else. by rewrite Hx, He. }
    exists e'. unfold search_tracks, search_with, query_of. by rewrite Hne, He'.
  - destruct (filter_c_throws (video_matches (toLowerCase q)) (videos st) t e Ht)
      as [e' He'].
    { unfold video_matches, or_else. by rewrite Hx, He. }
    exists e'. unfold search_videos, search_with, query_of. by rewrite Hne, He'.
Qed.

Lemma search_throws_on_untyped_title_witness :
  ∃ st' e,
    post_track sample_world [("url", JStr "n.mp3"); ("title", JNum 5)]
      sample_server
    = (st', Res 201 (JObj [("id", JStr "1700000000000-42");
                           ("url", JStr "n.mp3"); ("title", JNum 5)])) ∧
    search_tracks (Some "song") st' = (st', Uncaught e).
Proof.
  eexists. 
  destruct (search_throws_on_untyped_title Tracks "song"
              (post_track sample_world
                 [("url", JStr "n.mp3"); ("title", JNum 5)] sample_server).1
              [("id", JStr "1700000000000-42"); ("url", JStr "n.mp3");
               ("title", JNum 5)] (JNum 5))
    as [e He].
  - discriminate.
  - right. left.
  - reflexivity.
  - exact I.
  - exists e. split; [reflexivity | exact He].
Defined.

(** ** Files and memory *)

Lemma as_records_collection_doc l : as_records (collection_doc l) = Some l.
Proof. unfold as_records, collection_doc. by apply mapM_fmap_Some. Qed.

Lemma saveTracks_works w st :
  disk_ok w = true →
  saveTracks w st = set_data_json (Parsed (collection_doc (tracks st))) st.
Proof. unfold saveTracks. by intros ->. Qed.

Lemma saveVideos_works w vs st :
  disk_ok w = true →
  saveVideos w vs st = set_videos_json (Parsed (collection_doc vs)) st.
Proof. unfold saveVideos. by intros ->. Qed.

Lemma saveTracks_breaks w st :
  disk_ok w = false →
  saveTracks w st = log_error "Failed to save data.json" st.
Proof. unfold saveTracks. by intros ->. Qed.

Lemma saveVideos_breaks w vs st :
  disk_ok w = false →
  saveVideos w vs st = log_error "Failed to save videos.json" st.
Proof. unfold saveVideos. by intros ->. Qed.

(** What a request leaves in the files while the disk works. *)
Lemma working_disk_writes w req st st' r :
  disk_ok w = true →
  dispatch w req st = Some (st', r) →
  (tracks st' ≠ tracks st →
   data_json st' = Parsed (collection_doc (tracks st'))) ∧
  (videos st' ≠ videos st →
   videos_json st' = Parsed (collection_doc (videos st'))) ∧
  (mirrored st → mirrored st').
Proof.
  intros Hok H. by_route req H.
  - unfold get_tracks in H. by injection H as <- _.
  - pose proof (get_track_state id st) as Hs. rewrite H in Hs.
    simpl in Hs. by subst st'.
  - destruct (post_track_cases w (body req) st) as [E'|[t E']];
      rewrite E' in H; injection H as <- _; [done|].
    rewrite saveTracks_works by done. simpl.
    split; [done|]. split; [done|]. by intros [_ ?].
  - destruct (delete_track_cases w id st) as [[_ E']|(i & t & _ & E')];
      rewrite E' in H; injection H as <- _; [done|].
    rewrite saveTracks_works by done. simpl.
    split; [done|]. split; [done|]. by intros [_ ?].
  - unfold get_videos in H. by injection H as <- _.
  - pose proof (get_video_state id st) as Hs. rewrite H in Hs.
    simpl in Hs. by subst st'.
  - destruct (post_video_cases w (body req) st) as [[e E']|[v E']];
      rewrite E' in H; injection H as <- _; [done|].
    rewrite saveVideos_works by done. simpl.
    split; [done|]. split; [done|]. by intros [? _].
  - destruct (delete_video_cases w id st) as [[_ E']|(i & t & _ & E')];
      rewrite E' in H; injection H as <- _; [done|].
    rewrite saveVideos_works by done. simpl.
    split; [done|]. split; [done|]. by intros [? _].
  - unfold search_tracks in H. by injection H as <- _.
  - unfold search_videos in H. by injection H as <- _.
Qed.

(** X7. While the disk works, every request that changes a collection
    leaves that collection's data file holding exactly the new in-memory
    sequence (the whole array is rewritten, so a file that had fallen behind
    catches up), and a server whose two files hold the two in-memory
    collections stays so after any request. *)
Theorem working_disk_mirrors_memory w req st st' r :
  disk_ok w = true →
  dispatch w req st = Some (st', r) →
  (tracks st' ≠ tracks st →
   data_json st' = Parsed (collection_doc (tracks st'))) ∧
  (videos st' ≠ videos st →
   videos_json st' = Parsed (collection_doc (videos st'))) ∧
  (mirrored st → mirrored st').
Proof. apply working_disk_writes. Qed.

Lemma working_disk_mirrors_memory_witness :
  ∃ st', dispatch sample_world (Request POST ["tracks"] None body_b)
           sample_server
         = Some (st', Res 201 (JObj (("id", JStr "1700000000000-42")
                                     :: body_b))) ∧
         data_json st' = Parsed (collection_doc (tracks st')).
Proof.
  eexists. split; [reflexivity|].
  apply (proj1 (working_disk_mirrors_memory sample_world
                  (Request POST ["tracks"] None body_b) sample_server
                  _ _ eq_refl eq_refl)).
  discriminate.
Defined.

Lemma serve_mirrored reqs st :
  Forall (λ wr : world * request, disk_ok wr.1 = true) reqs →
  mirrored st → mirrored (serve reqs st).
Proof.
  intros Hok. revert st.
  induction Hok as [|[w req] reqs Hw _ IH]; intros st Hm; cbn [serve]; [done|].
  destruct (dispatch w req st) as [[st' r]|] eqn:E; [|by apply IH].
  apply IH. by apply (working_disk_writes w req st st' r).
Qed.

Lemma boot_mirrored gen write_ok seed st :
  mirrored st →
  boot gen write_ok (data_json st) seed (videos_json st)
  = Some (Server (tracks st) (videos st) (data_json st) (videos_json st) []).
Proof.
  intros [Ht Hv]. unfold boot, loadTracks, loadVideos. rewrite Ht, Hv.
  cbn [existsSync read_json result data_after errors fst snd].
  by rewrite !as_records_collection_doc.
Qed.

(** X8. Restart round trip.  If the two data files hold the two in-memory
    collections and the disk works for every request of a process lifetime,
    then a new process started from the files left behind begins with
    exactly the collections the old one ended with, in the same order,
    whatever the seed file holds and without writing or logging anything. *)
Theorem restart_reproduces_collections reqs st gen write_ok seed :
  mirrored st →
  Forall (λ wr : world * request, disk_ok wr.1 = true) reqs →
  let st' := serve reqs st in
  boot gen write_ok (data_json st') seed (videos_json st')
  = Some (Server (tracks st') (videos st') (data_json st') (videos_json st')
                 []).
Proof.
  intros Hm Hok. cbv zeta. apply boot_mirrored. by apply serve_mirrored.
Qed.

Lemma restart_reproduces_collections_witness :
  boot (λ _, sample_world) false
    (data_json (serve [(sample_world, Request POST ["tracks"] None body_b);
                       (sample_world, Request DELETE ["tracks"; "nobody"]
                                        None [])] synced_server))
    Absent
    (videos_json (serve [(sample_world, Request POST ["tracks"] None body_b);
                         (sample_world, Request DELETE ["tracks"; "nobody"]
                                          None [])] synced_server))
  = Some (Server [song_a; ("id", JStr "1700000000000-42") :: body_b] []
            (Parsed (collection_doc
                       [song_a; ("id", JStr "1700000000000-42") :: body_b]))
            (Parsed (collection_doc [])) []).
Proof.
  apply (restart_reproduces_collections
           [(sample_world, Request POST ["tracks"] None body_b);
            (sample_world, Request DELETE ["tracks"; "nobody"] None [])]
           synced_server (λ _, sample_world) false Absent).
  - split; reflexivity.
  - repeat constructor.
Defined.

(** X9. The next successful write repairs a data file.  Whatever a data
    file holds (content that fell behind the memory or that cannot be
    parsed, as an earlier failed write may leave, or no file at all), once
    a request changes a collection while the write succeeds, a process
    started from the file reads back exactly the in-memory sequence of that
    collection, in order, whatever the seed file holds, writing and logging
    nothing. *)
Theorem next_write_repairs_the_file w req st st' r gen write_ok seed :
  disk_ok w = true →
  dispatch w req st = Some (st', r) →
  (tracks st' ≠ tracks st →
   loadTracks gen write_ok (data_json st') seed
   = Loaded (collection_doc (tracks st')) (data_json st') []) ∧
  (videos st' ≠ videos st →
   loadVideos (videos_json st') = (collection_doc (videos st'), [])).
Proof.
  intros Hok H.
  destruct (working_disk_writes w req st st' r Hok H) as (Ht & Hv & _).
  split.
  - intros Hne. by rewrite (Ht Hne).
  - intros Hne. by rewrite (Hv Hne).
Qed.

Lemma next_write_repairs_the_file_witness :
  ∃ st',
    dispatch next_draw_world (Request POST ["tracks"] None body_b)
      stale_server
    = Some (st', Res 201 (JObj (("id", JStr "1700000000000-43") :: body_b))) ∧
    loadTracks (λ _, sample_world) false (data_json st') seed_with_own_id
    = Loaded (collection_doc
                [song_a; ("id", JStr "1700000000000-43") :: body_b])
             (data_json st') [].
Proof.
  eexists. split; [reflexivity|].
  apply (proj1 (next_write_repairs_the_file next_draw_world
                  (Request POST ["tracks"] None body_b) stale_server _ _
                  (λ _, sample_world) false seed_with_own_id
                  eq_refl eq_refl)).
  discriminate.
Defined.

(** ** More on seeding *)

(** X10. Seeding happens once.  After a seeding whose write-back
    succeeded, the next start, whatever the clock, the random draws and the
    seed file have become, reads the same collection back with the ids
    given the first time, writes nothing and logs nothing.  After a seeding
    whose write-back threw, the process runs with an empty tracks collection
    although the seed was read. *)
Theorem seeding_happens_once gen data seed arr :
  data = Absent ∨ data = Malformed →
  seed = Parsed (JArr arr) →
  (∀ gen' write_ok' seed',
     loadTracks gen' write_ok' (data_after (loadTracks gen true data seed))
                seed'
     = Loaded (result (loadTracks gen true data seed))
              (data_after (loadTracks gen true data seed)) []) ∧
  result (loadTracks gen false data seed) = JArr [].
Proof.
  intros Hdata ->. split; [|by destruct Hdata as [-> | ->]].
  intros gen' write_ok' seed'. by destruct Hdata as [-> | ->].
Qed.

Lemma seeding_happens_once_witness :
  loadTracks (λ _, World 1 1 "" true) false
    (data_after (loadTracks (λ _, sample_world) true Absent seed_with_own_id))
    Absent
  = Loaded (result (loadTracks (λ _, sample_world) true Absent
                      seed_with_own_id))
           (data_after (loadTracks (λ _, sample_world) true Absent
                          seed_with_own_id)) [].
Proof.
  apply (proj1 (seeding_happens_once (λ _, sample_world) Absent
                  seed_with_own_id _ (or_introl eq_refl) eq_refl)).
Defined.

Lemma prop_spread_kept (kvs o : obj) k :
  is_Some (prop o k) →
  is_Some (prop (fold_left (λ o kv, obj_set kv.1 kv.2 o) kvs o) k).
Proof.
  revert o. induction kvs as [|[k0 v0] kvs IH]; intros o Ho; cbn [fold_left];
    [done|].
  apply IH. cbn [fst snd]. rewrite prop_obj_set.
  by destruct (String.eqb k0 k).
Qed.

Lemma prop_spread_absent (kvs o : obj) k :
  prop kvs k = None →
  prop (fold_left (λ o kv, obj_set kv.1 kv.2 o) kvs o) k = prop o k.
Proof.
  revert o. induction kvs as [|[k0 v0] kvs IH]; intros o Hk; cbn [fold_left];
    [done|].
  cbn [prop] in Hk. destruct (String.eqb k0 k) eqn:E; [discriminate Hk|].
  rewrite IH by done. cbn [fst snd]. by rewrite prop_obj_set, E.
Qed.

(** X17. Whenever [loadTracks] falls back from the data file (absent or
    unreadable), what it returns is an array of objects each of which has an
    [id] property, whatever the seed file holds and whether or not the
    write-back succeeds: the handlers never start on a record without an
    id, an entry that is not an object (a number, a string, [null], an
    array) having been turned into one. *)
Theorem fallback_records_have_ids gen write_ok data seed :
  data = Absent ∨ data = Malformed →
  ∃ l, result (loadTracks gen write_ok data seed) = collection_doc l ∧
       Forall (λ m, is_Some (prop m "id")) l.
Proof.
  intros Hdata.
  assert (Hseed : ∀ log, ∃ l,
            result (load_seed gen write_ok data seed log) = collection_doc l ∧
            Forall (λ m, is_Some (prop m "id")) l).
  { intros log. unfold load_seed.
    destruct seed as [| |[| | | |arr|]]; cbn [existsSync read_json];
      try (by exists []).
    destruct write_ok; [|by exists []].
    eexists. split; [reflexivity|].
    apply Forall_lookup. intros i m [t [_ ->]]%list_lookup_imap_Some.
    unfold ensure_id. apply prop_spread_kept. by eexists. }
  destruct Hdata as [-> | ->]; apply Hseed.
Qed.

Lemma fallback_records_have_ids_witness :
  ∃ l, result (loadTracks (λ _, sample_world) true Malformed
                 (Parsed (JArr [JNum 7; JStr "ab"; JNull])))
       = collection_doc l ∧
       Forall (λ m, is_Some (prop m "id")) l.
Proof.
  apply (fallback_records_have_ids (λ _, sample_world) true Malformed
           (Parsed (JArr [JNum 7; JStr "ab"; JNull])) (or_intror eq_refl)).
Defined.

Lemma seeded_ids gen arr :
  Forall (λ t, prop (own_props t) "id" = None) arr →
  ids (imap (λ i t, ensure_id (gen i) t) arr)
  = (λ i, Some (JStr (generateId (gen i)))) <$> seq 0 (length arr).
Proof.
  intros Hown. unfold ids. rewrite fmap_imap, <- imap_seq_0.
  apply imap_ext. intros i t Hi. cbn.
  rewrite Forall_lookup in Hown. unfold ensure_id.
  by rewrite prop_spread_absent by (by eapply Hown).
Qed.

(** X11. When no seed entry brings an id of its own, the collection that
    seeding produces has unique ids exactly when no two of the
    [generateId()] calls, made one per entry in a single pass, read both
    the same millisecond and the same random draw. *)
Theorem seeded_ids_unique_iff gen data seed arr :
  data = Absent ∨ data = Malformed →
  seed = Parsed (JArr arr) →
  Forall (λ t, prop (own_props t) "id" = None) arr →
  ∃ l, result (loadTracks gen true data seed) = collection_doc l ∧
       length l = length arr ∧
       (unique_ids l ↔
        ∀ i j, i < length arr → j < length arr →
               clock (gen i) = clock (gen j) → draw (gen i) = draw (gen j) →
               i = j).
Proof.
  intros Hdata -> Hown.
  exists (imap (λ i t, ensure_id (gen i) t) arr).
  split; [by destruct Hdata as [-> | ->]|]. split; [apply length_imap|].
  unfold unique_ids. rewrite seeded_ids by done. rewrite NoDup_alt. split.
  - intros Hnd i j Hi Hj Hc Hd.
    apply (Hnd i j (Some (JStr (generateId (gen i))))).
    + by rewrite list_lookup_fmap, lookup_seq_lt.
    + rewrite list_lookup_fmap, lookup_seq_lt by done. cbn.
      by rewrite (proj2 (generateId_inj (gen i) (gen j)) (conj Hc Hd)).
  - intros Hinj i j x.
    rewrite !list_lookup_fmap.
    intros (i' & [-> Hi]%lookup_seq & ->)%fmap_Some
           (j' & [-> Hj]%lookup_seq & [= Hg])%fmap_Some.
    apply generateId_inj in Hg as [Hc Hd]. cbn in *. by apply Hinj.
Qed.

Lemma seeded_ids_unique_iff_witness :
  ∃ l, result (loadTracks (λ _, sample_world) true Absent
                 (Parsed (JArr [JObj [("title", JStr "Intro")];
                                JObj [("title", JStr "Outro")]])))
       = collection_doc l ∧
       length l = 2 ∧ ¬ unique_ids l.
Proof.
  destruct (seeded_ids_unique_iff (λ _, sample_world) Absent
              (Parsed (JArr [JObj [("title", JStr "Intro")];
                             JObj [("title", JStr "Outro")]]))
              _ (or_introl eq_refl) eq_refl)
    as (l & Hr & Hl & Hiff).
  - repeat constructor.
  - exists l. split; [exact Hr|]. split; [exact Hl|].
    intros Hu. specialize (proj1 Hiff Hu 0 1). simpl. intros H.
    specialize (H ltac:(lia) ltac:(lia) eq_refl eq_refl). discriminate H.
Defined.

(** ** How the operations compose *)

Lemma unique_ids_no_other (l : list obj) i t id :
  unique_ids l → l !! i = Some t → has_id id t →
  ∀ j x, j ≠ i → l !! j = Some x → ¬ has_id id x.
Proof.
  intros Hu Hi Ht%has_id_iff j x Hne Hj Hx%has_id_iff. apply Hne.
  apply (NoDup_lookup (ids l) j i (Some (JStr id)) Hu); unfold ids;
    rewrite list_lookup_fmap.
  - rewrite Hj. cbn. by rewrite Hx.
  - rewrite Hi. cbn. by rewrite Ht.
Qed.

Lemma fresh_after_unique_delete (l : list obj) i t id :
  unique_ids l → list_find (has_id id) l = Some (i, t) →
  list_find (has_id id) (delete i l) = None.
Proof.
  intros Hu (Hi & Ht & Hbefore)%list_find_Some.
  apply list_find_None. apply fresh_after_delete.
  - intros j x Hlt Hj. by eapply Hbefore.
  - intros j x Hlt Hj.
    apply (unique_ids_no_other l i t id Hu Hi Ht j x); [lia | done].
Qed.

(** X12. In a collection whose ids are unique, once DELETE has answered 200
    for an id, that id is gone: a GET of the same id and a second DELETE of
    it both answer 404 [{error: "Not found"}] and change nothing. *)
Theorem deleted_id_is_gone k w q b id st st' r :
  id ≠ "" →
  unique_ids (collection k st) →
  dispatch w (Request DELETE [resource k; id] q b) st = Some (st', Res 200 r) →
  ∀ w' q' b',
    dispatch w' (Request GET [resource k; id] q' b') st'
    = Some (st', not_found) ∧
    dispatch w' (Request DELETE [resource k; id] q' b') st'
    = Some (st', not_found).
Proof.
  intros Hid Hu H w' q' b'. rewrite dispatch_delete in * by done.
  apply (inj Some) in H. destruct k; simpl in Hu.
  - rewrite dispatch_get_track by done.
    destruct (delete_track_cases w id st) as [[_ E]|(i & t & Hf & E)];
      rewrite E in H; [discriminate H|]. injection H as <- _.
    unfold get_track, delete_track. rewrite saveTracks_tracks. simpl.
    by rewrite (fresh_after_unique_delete _ _ _ _ Hu Hf).
  - rewrite dispatch_get_video by done.
    destruct (delete_video_cases w id st) as [[_ E]|(i & t & Hf & E)];
      rewrite E in H; [discriminate H|]. injection H as <- _.
    unfold get_video, delete_video. rewrite saveVideos_videos. simpl.
    by rewrite (fresh_after_unique_delete _ _ _ _ Hu Hf).
Qed.

Lemma deleted_id_is_gone_witness :
  ∃ st',
    dispatch sample_world
      (Request DELETE ["tracks"; "1700000000000-42"] None []) sample_server
    = Some (st', Res 200 (JObj song_a)) ∧
    dispatch sample_world
      (Request GET ["tracks"; "1700000000000-42"] None []) st'
    = Some (st', not_found).
Proof.
  eexists. split; [reflexivity|].
  eapply (proj1 (deleted_id_is_gone Tracks sample_world None []
                   "1700000000000-42" sample_server _ _
                   ltac:(discriminate) ltac:(repeat constructor;
                                             by intros ?%elem_of_nil)
                   eq_refl sample_world None [])).
Defined.

(** X13. Create and delete undo each other.  After a create that answered
    201 under an id that no stored record bore, a DELETE of the returned id
    answers 200 with the very record that the create returned, and both
    collections are back to the sequences they were before the create. *)
Theorem create_then_delete_restores k w q body st st1 r :
  fresh_id (generateId w) (collection k st) →
  dispatch w (Request POST [resource k] q body) st = Some (st1, Res 201 r) →
  ∀ w' q' b',
    ∃ st2,
      dispatch w' (Request DELETE [resource k; generateId w] q' b') st1
      = Some (st2, Res 200 r) ∧
      tracks st2 = tracks st ∧ videos st2 = videos st.
Proof.
  intros Hfresh H w' q' b'.
  rewrite dispatch_delete by apply generateId_nonempty.
  destruct k; simpl in *.
  - rewrite dispatch_post_tracks in H. apply (inj Some) in H.
    destruct (post_track_created _ _ _ _ _ H) as (t & -> & Et & Ev & Hid).
    unfold delete_track. rewrite Et.
    rewrite (find_appended (generateId w)) by (done || by apply has_id_iff).
    eexists. split; [reflexivity|].
    rewrite saveTracks_tracks, saveTracks_videos.
    cbn [tracks videos set_tracks].
    pose proof (delete_middle (tracks st) [] t) as Hd.
    rewrite app_nil_r in Hd. done.
  - rewrite dispatch_post_videos in H. apply (inj Some) in H.
    destruct (post_video_created _ _ _ _ _ H) as (v & -> & Ev & Et & Hid).
    unfold delete_video. rewrite Ev.
    rewrite (find_appended (generateId w)) by (done || by apply has_id_iff).
    eexists. split; [reflexivity|].
    rewrite saveVideos_tracks, saveVideos_videos.
    cbn [tracks videos set_videos].
    pose proof (delete_middle (videos st) [] v) as Hd.
    rewrite app_nil_r in Hd. done.
Qed.

Lemma create_then_delete_restores_witness :
  ∃ st1 r st2,
    dispatch sample_world (Request POST ["videos"] None body_clip)
      media_server = Some (st1, Res 201 r) ∧
    dispatch (disk_fails sample_world)
      (Request DELETE ["videos"; "1700000000000-42"] None []) st1
    = Some (st2, Res 200 r) ∧
    tracks st2 = [song_a] ∧ videos st2 = [clip].
Proof.
  do 2 eexists.
  destruct (create_then_delete_restores Videos sample_world None body_clip
              media_server _ _
              ltac:(repeat constructor; discriminate) eq_refl
              (disk_fails sample_world) None [])
    as (st2 & Hd & Ht & Hv).
  exists st2. split; [reflexivity|]. split; [exact Hd|]. split; done.
Defined.

(** ** Exactly which bodies are accepted *)

Lemma usable_truthy v : usable v ↔ truthy v = true.
Proof.
  unfold usable, falsy_value. split.
  - intros (x & -> & Hx). destruct x as [|[]|n|s| |]; simpl; try done.
    + destruct Hx. auto.
    + destruct Hx. auto.
    + destruct (Z.eqb_spec n 0) as [->|]; [|done]. destruct Hx. auto.
    + destruct (String.eqb_spec s "") as [->|]; [|done]. destruct Hx. auto.
  - destruct v as [x|]; [|done]. intros Hx. exists x. split; [done|].
    intros [-> | [-> | [-> | ->]]]; discriminate Hx.
Qed.

Lemma not_usable_falsy v : ¬ usable v ↔ truthy v = false.
Proof. rewrite usable_truthy. by destruct (truthy v). Qed.

(** X14. POST /tracks looks at truthiness only.  It answers 201 exactly
    when [url] and [title] both hold a value other than [null], [false], 0
    and the empty string, whatever the type of that value (a number, [true],
    an array or an object passes); in every other case it answers 400
    [{error: "url and title are required"}] and changes nothing. *)
Theorem post_track_accepts_exactly w q body st :
  let out := dispatch w (Request POST ["tracks"] q body) st in
  (usable (prop body "url") ∧ usable (prop body "title") →
   ∃ st' t, out = Some (st', Res 201 (JObj t)) ∧
            tracks st' = tracks st ++ [t]) ∧
  (¬ (usable (prop body "url") ∧ usable (prop body "title")) →
   out = Some (st, bad_track_request)).
Proof.
  cbv zeta. rewrite dispatch_post_tracks. unfold post_track.
  rewrite !usable_truthy. split.
  - intros [-> ->]. simpl. do 2 eexists. split; [reflexivity|].
    by rewrite saveTracks_tracks.
  - intros Hn.
    destruct (truthy (prop body "url")), (truthy (prop body "title"));
      simpl; try done. by destruct Hn.
Qed.

Lemma post_track_accepts_exactly_witness :
  (∃ st' t,
     dispatch sample_world
       (Request POST ["tracks"] None [("url", JArr []); ("title", JNum 5)])
       empty_server = Some (st', Res 201 (JObj t)) ∧
     tracks st' = tracks empty_server ++ [t]) ∧
  dispatch sample_world
    (Request POST ["tracks"] None [("url", JStr "a.mp3"); ("title", JNum 0)])
    empty_server = Some (empty_server, bad_track_request).
Proof.
  split.
  - apply (proj1 (post_track_accepts_exactly sample_world None
                    [("url", JArr []); ("title", JNum 5)] empty_server)).
    split; eexists; (split; [reflexivity|]);
      intros [H | [H | [H | H]]]; discriminate H.
  - apply (proj2 (post_track_accepts_exactly sample_world None
                    [("url", JStr "a.mp3"); ("title", JNum 0)] empty_server)).
    intros [_ (x & [= <-] & Hx)]. apply Hx. right. right. by left.
Defined.

(** X15. POST /videos checks the locators before the title.  It answers
    201 exactly when [title] and at least one of [url] and [localUri] hold a
    value other than [null], [false], 0 and the empty string.  When neither
    [url] nor [localUri] does, the answer is 400
    [{error: "url or localUri is required"}], also when the title is
    missing too; [{error: "title is required"}] is answered only when a
    locator is there and the title is not.  A 400 changes nothing. *)
Theorem post_video_accepts_exactly w q body st :
  let out := dispatch w (Request POST ["videos"] q body) st in
  (usable (prop body "title") ∧
   (usable (prop body "url") ∨ usable (prop body "localUri")) →
   ∃ st' v, out = Some (st', Res 201 (JObj v)) ∧
            videos st' = videos st ++ [v]) ∧
  (¬ usable (prop body "url") ∧ ¬ usable (prop body "localUri") →
   out = Some (st, Res 400 (JObj [("error",
                                   JStr "url or localUri is required")]))) ∧
  ((usable (prop body "url") ∨ usable (prop body "localUri")) ∧
   ¬ usable (prop body "title") →
   out = Some (st, Res 400 (JObj [("error", JStr "title is required")]))).
Proof.
  cbv zeta. rewrite dispatch_post_videos.
  rewrite !not_usable_falsy, !usable_truthy. split; [|split].
  - intros [Ht Hu].
    destruct (post_video_accepts w body st Ht Hu) as (t & v & _ & _ & ->).
    do 2 eexists. split; [reflexivity|]. by rewrite saveVideos_videos.
  - intros [Hu Hl]. unfold post_video. by rewrite Hu, Hl.
  - intros [Hu Ht]. unfold post_video. rewrite Ht.
    by destruct Hu as [-> | ->]; simpl; rewrite ?andb_false_r.
Qed.

Lemma post_video_accepts_exactly_witness :
  dispatch sample_world (Request POST ["videos"] None []) empty_server
  = Some (empty_server,
          Res 400 (JObj [("error", JStr "url or localUri is required")])) ∧
  dispatch sample_world
    (Request POST ["videos"] None [("url", JStr "https://v/1.mp4")])
    empty_server
  = Some (empty_server, Res 400 (JObj [("error", JStr "title is required")])).
Proof.
  split.
  - apply (proj1 (proj2 (post_video_accepts_exactly sample_world None []
                           empty_server))).
    split; by intros (x & ? & _).
  - apply (proj2 (proj2 (post_video_accepts_exactly sample_world None
                           [("url", JStr "https://v/1.mp4")] empty_server))).
    split; [|by intros (x & ? & _)].
    left. eexists. split; [reflexivity|].
    intros [H | [H | [H | H]]]; discriminate H.
Defined.

(** * The client as a caller of the API *)

Lemma loadServerVideos_lists w st :
  loadServerVideos w st = (st, collection_doc (videos st)).
Proof. reflexivity. Qed.

(** X16. What the client's video search shows.  With a blank query it shows
    the server's whole list.  With any other query it asks
    [/videos/search?q=...], which the server answers as a read of the id
    "search": unless a video has that id, the 404 body parses as JSON and
    [serverVideos], which the screen renders as a list, becomes the object
    [{error: "Not found"}]; no query ever shows the matching videos. *)
Theorem client_search_shows_error_object trim query w st current :
  (trim query = "" →
   searchServerVideos trim query w st current
   = (st, collection_doc (videos st))) ∧
  (trim query ≠ "" → fresh_id "search" (videos st) →
   searchServerVideos trim query w st current
   = (st, JObj [("error", JStr "Not found")])).
Proof.
  unfold searchServerVideos. split.
  - intros ->. apply loadServerVideos_lists.
  - intros Hq%String.eqb_neq Hf. rewrite Hq. unfold fetch_json.
    rewrite (search_route_is_shadowed Videos). unfold get_video.
    unfold fresh_id in Hf. apply (list_find_None (has_id "search")) in Hf.
    by rewrite Hf.
Qed.

Lemma client_search_shows_error_object_witness :
  searchServerVideos (λ s, s) "clip" sample_world media_server
    (collection_doc [clip])
  = (media_server, JObj [("error", JStr "Not found")]).
Proof.
  apply (proj2 (client_search_shows_error_object (λ s, s) "clip" sample_world
                  media_server (collection_doc [clip]))).
  - discriminate.
  - repeat constructor. discriminate.
Defined.

(** X18. Saving a picked video from the client.  With a non-empty uri and
    a non-empty title, [saveVideoToServer] leaves the server with one more
    video, stored with that [localUri] and [title], a [null] url and
    duration, and the thumbnail when a non-empty one was passed ([null]
    otherwise), and [serverVideos] becomes the server's list with that
    record last.  With an empty uri or an empty title the POST is refused,
    which the client does not look at: nothing is saved and the list is
    shown as it was. *)
Theorem client_save_then_list uri title thumbnail w1 w2 st :
  (uri ≠ "" → title ≠ "" →
   ∃ st' v,
     saveVideoToServer uri title thumbnail w1 w2 st
     = (st', collection_doc (videos st ++ [v])) ∧
     videos st' = videos st ++ [v] ∧
     v = [("id", JStr (generateId w1)); ("url", JNull);
          ("localUri", JStr uri); ("title", JStr title);
          ("thumbnail", or_null (JStr <$> thumbnail));
          ("duration", JNull); ("createdAt", JStr (iso w1))]) ∧
  (uri = "" ∨ title = "" →
   saveVideoToServer uri title thumbnail w1 w2 st
   = (st, collection_doc (videos st))).
Proof.
  unfold saveVideoToServer, fetch_json. rewrite dispatch_post_videos.
  assert (Hbody : ∀ k, k ∈ ["url"; "title"; "localUri"; "thumbnail";
                            "duration"] →
            prop (object [("localUri", Some (JStr uri));
                          ("title", Some (JStr title));
                          ("thumbnail", JStr <$> thumbnail)]) k
            = match k with
              | "title" => Some (JStr title)
              | "localUri" => Some (JStr uri)
              | "thumbnail" => JStr <$> thumbnail
              | _ => None
              end).
  { intros k Hk.
    repeat (apply elem_of_cons in Hk as [-> | Hk]);
      [..| by apply elem_of_nil in Hk]; by destruct thumbnail. }
  split.
  - intros Hu%String.eqb_neq Ht%String.eqb_neq.
    unfold post_video.
    rewrite !Hbody by repeat constructor. simpl truthy. rewrite Hu, Ht.
    cbn [negb andb fst object or_null truthy]. rewrite Hu. cbn [negb].
    rewrite loadServerVideos_lists, saveVideos_videos.
    cbn [videos set_videos]. do 2 eexists.
    split; [reflexivity|]. split; [apply saveVideos_videos | reflexivity].
  - intros Hempty. unfold post_video.
    rewrite !Hbody by repeat constructor. simpl truthy.
    destruct Hempty as [-> | ->]; cbn [negb andb fst String.eqb].
    + apply loadServerVideos_lists.
    + destruct (negb (uri =? "")%string); apply loadServerVideos_lists.
Qed.

Lemma client_save_then_list_witness :
  ∃ st' v,
    saveVideoToServer "file:///clip.mp4" "Clip" None sample_world
      sample_world media_server
    = (st', collection_doc [clip; v]) ∧
    prop v "localUri" = Some (JStr "file:///clip.mp4") ∧
    prop v "thumbnail" = Some JNull.
Proof.
  destruct (proj1 (client_save_then_list "file:///clip.mp4" "Clip" None
                     sample_world sample_world media_server)
              ltac:(discriminate) ltac:(discriminate))
    as (st' & v & Hs & _ & ->).
  exists st'. eexists. split; [exact Hs|]. split; reflexivity.
Defined.

(** * A whole process lifetime *)

Lemma fresh_id_snoc id (l : list obj) t :
  fresh_id id l → ¬ has_id id t → fresh_id id (l ++ [t]).
Proof.
  intros Hl Ht. apply Forall_app. split; [done|]. by constructor.
Qed.

(** An id other than the one a request may generate is not introduced by
    that request. *)
Lemma dispatch_keeps_fresh w req st st' r sid :
  dispatch w req st = Some (st', r) →
  sid ≠ generateId w →
  (fresh_id sid (tracks st) → fresh_id sid (tracks st')) ∧
  (fresh_id sid (videos st) → fresh_id sid (videos st')).
Proof.
  intros H Hne.
  assert (Hnew : ∀ t : obj, prop t "id" = Some (JStr (generateId w)) →
                   ¬ has_id sid t).
  { intros t Ht Hid%has_id_iff. congruence. }
  by_route req H.
  - unfold get_tracks in H. by injection H as <- _.
  - pose proof (get_track_state id st) as Hs. rewrite H in Hs.
    simpl in Hs. by subst st'.
  - destruct (post_track_cases w (body req) st) as [E'|[t E']].
    { rewrite E' in H. by injection H as <- _. }
    rewrite E' in H. injection H as <- <-.
    destruct (post_track_created _ _ _ _ _ E') as (t' & [= <-] & -> & -> & Ht).
    split; [|done]. intros Hf. apply fresh_id_snoc; auto.
  - destruct (delete_track_cases w id st) as [[_ E']|(i & t & _ & E')];
      rewrite E' in H; injection H as <- _; [done|].
    rewrite saveTracks_tracks, saveTracks_videos. simpl.
    split; [|done]. apply Forall_delete.
  - unfold get_videos in H. by injection H as <- _.
  - pose proof (get_video_state id st) as Hs. rewrite H in Hs.
    simpl in Hs. by subst st'.
  - destruct (post_video_cases w (body req) st) as [[e E']|[v E']].
    { rewrite E' in H. by injection H as <- _. }
    rewrite E' in H. injection H as <- <-.
    destruct (post_video_created _ _ _ _ _ E') as (v' & [= <-] & -> & -> & Hv).
    split; [done|]. intros Hf. apply fresh_id_snoc; auto.
  - destruct (delete_video_cases w id st) as [[_ E']|(i & t & _ & E')];
      rewrite E' in H; injection H as <- _; [done|].
    rewrite saveVideos_tracks, saveVideos_videos. simpl.
    split; [done|]. apply Forall_delete.
  - unfold search_tracks in H. by injection H as <- _.
  - unfold search_videos in H. by injection H as <- _.
Qed.

(** X19. Ids stay unique over a whole process lifetime when no two requests
    read both the same millisecond and the same random draw.  Starting from
    collections whose ids are unique and in which no id that a coming
    request would generate is already stored (the empty server, for one),
    every sequence of requests whose clock-and-draw readings are pairwise
    different ends with unique ids in both collections. *)
Theorem ids_stay_unique_over_a_lifetime reqs st :
  unique_ids (tracks st) → unique_ids (videos st) →
  (∀ wr : world * request, wr ∈ reqs →
     fresh_id (generateId wr.1) (tracks st) ∧
     fresh_id (generateId wr.1) (videos st)) →
  NoDup ((λ wr : world * request, reading wr.1) <$> reqs) →
  unique_ids (tracks (serve reqs st)) ∧ unique_ids (videos (serve reqs st)).
Proof.
  revert st. induction reqs as [|[w req] reqs IH]; intros st Ut Uv Hfresh Hnd;
    cbn [serve]; [done|].
  rewrite fmap_cons in Hnd. apply NoDup_cons in Hnd as [Hw Hnd].
  destruct (dispatch w req st) as [[st' r]|] eqn:E.
  - destruct (dispatch_unique_ids w req st st' r E) as [Ut' Uv'];
      [intros _; apply (Hfresh (w, req)); by left | done | done |].
    apply IH; [done | done | | done].
    intros [w' req'] Hin.
    assert (Hne : generateId w' ≠ generateId w).
    { intros [Hc Hd]%generateId_inj. apply Hw.
      apply list_elem_of_fmap. exists (w', req'). split; [|done].
      unfold reading. simpl. by rewrite Hc, Hd. }
    destruct (Hfresh (w', req') ltac:(by right)) as [Ft Fv].
    destruct (dispatch_keeps_fresh w req st st' r _ E Hne) as [Ht Hv].
    split; auto.
  - apply IH; [done | done | | done].
    intros wr Hin. apply Hfresh. by right.
Qed.

Lemma ids_stay_unique_over_a_lifetime_witness :
  unique_ids
    (tracks (serve [(sample_world, Request POST ["tracks"] None body_b);
                    (World 1700000000000 43 "" true,
                     Request POST ["tracks"] None body_c)] empty_server)) ∧
  unique_ids
    (videos (serve [(sample_world, Request POST ["tracks"] None body_b);
                    (World 1700000000000 43 "" true,
                     Request POST ["tracks"] None body_c)] empty_server)).
Proof.
  apply (ids_stay_unique_over_a_lifetime
           [(sample_world, Request POST ["tracks"] None body_b);
            (World 1700000000000 43 "" true,
             Request POST ["tracks"] None body_c)] empty_server).
  - constructor.
  - constructor.
  - intros wr _. split; constructor.
  - repeat constructor; simpl.
    + intros [H|H%elem_of_nil]%elem_of_cons; [discriminate H | done].
    + by intros H%elem_of_nil.
Defined.
